(** * hsc-auth-api: the seasons repository and slug normalisation

  A shallow embedding of [createSeasonsRepo] (the repo layer over the
  [seasons] table: [listSeasons], [getSeasonBySlug], [getActiveSeason],
  [patchSeasonBySlug], [activateSeasonTx]) and of [normalizeSlug] from
  [index.js].

  The repo functions are JavaScript [async] functions over a mysql2
  connection.  They are embedded in a state-and-exception monad over a
  [world] that holds the committed table, the uncommitted view of the open
  transaction, the storage clock, a schedule saying which storage calls
  reject, and the trace of storage calls made so far.

  Further on: [setSeasonClosed] and the lifecycle under chains of writes,
  the role and admin-key helpers and the allowed origin of [index.js], the
  sessions and the session cookie of [sessions.js], the logout route and
  the creation of a news item. *)

From Stdlib Require Import List String Ascii ZArith NArith Bool Arith Lia.
From Stdlib Require Import Permutation Sorting.Sorted.
Import ListNotations.

(* ================================================================== *)
(** ** JavaScript values and errors *)
(* ================================================================== *)

Module Js.

(** The JavaScript values that reach the repo layer.  [JDate z] is a value
    denoting the UTC instant [z] (in seconds), whichever way the caller
    spells it. *)
Inductive jsval : Type :=
| JUndefined
| JNull
| JString (s : string)
| JDate (z : Z).

(** [v != null]: loose inequality, false for both [null] and [undefined]. *)
Definition loose_neq_null (v : jsval) : bool :=
  match v with
  | JUndefined | JNull => false
  | _ => true
  end.

(** [v !== undefined]: strict inequality. *)
Definition strict_neq_undefined (v : jsval) : bool :=
  match v with
  | JUndefined => false
  | _ => true
  end.

(** An [Error] object, as thrown by the driver. *)
Record js_error : Type := mkError { err_name : string; err_message : string }.

(** [String(err)], that is [Error.prototype.toString]. *)
Definition error_toString (e : js_error) : string :=
  if String.eqb (err_name e) EmptyString then err_message e
  else if String.eqb (err_message e) EmptyString then err_name e
  else (err_name e ++ ": " ++ err_message e)%string.

(** [err?.message || String(err)]: the empty string is falsy. *)
Definition message_or_string (e : js_error) : string :=
  if String.eqb (err_message e) EmptyString then error_toString e
  else err_message e.

(** How a statement list completes: normally with a value, or abruptly
    with a thrown error (a rejected promise). *)
Inductive completion (A : Type) : Type :=
| Normal (a : A)
| Abrupt (e : js_error).
Arguments Normal {A} a.
Arguments Abrupt {A} e.

End Js.
Import Js.

(* ================================================================== *)
(** ** The seasons table and the storage connection *)
(* ================================================================== *)

Module Db.

(** The [status] column: a closed enumeration. *)
Inductive season_status : Type := draft | active | closed.

Definition status_eqb (a b : season_status) : bool :=
  match a, b with
  | draft, draft | active, active | closed, closed => true
  | _, _ => false
  end.

(** A row of [seasons], with the columns every SELECT of the repo lists.
    Timestamps are UTC instants in seconds. *)
Record season : Type := mkSeason {
  id : Z;
  slug : string;
  name : string;
  description : option string;
  start_at : Z;
  end_at : Z;
  status : season_status;
  created_at : Z;
  updated_at : Z
}.

(** The table, in storage order. *)
Definition table : Type := list season.

Definition set_name (v : string) (r : season) : season :=
  mkSeason (id r) (slug r) v (description r) (start_at r) (end_at r)
           (status r) (created_at r) (updated_at r).
Definition set_description (v : option string) (r : season) : season :=
  mkSeason (id r) (slug r) (name r) v (start_at r) (end_at r)
           (status r) (created_at r) (updated_at r).
Definition set_start_at (v : Z) (r : season) : season :=
  mkSeason (id r) (slug r) (name r) (description r) v (end_at r)
           (status r) (created_at r) (updated_at r).
Definition set_end_at (v : Z) (r : season) : season :=
  mkSeason (id r) (slug r) (name r) (description r) (start_at r) v
           (status r) (created_at r) (updated_at r).
Definition set_status (v : season_status) (r : season) : season :=
  mkSeason (id r) (slug r) (name r) (description r) (start_at r) (end_at r)
           v (created_at r) (updated_at r).
Definition set_updated_at (v : Z) (r : season) : season :=
  mkSeason (id r) (slug r) (name r) (description r) (start_at r) (end_at r)
           (status r) (created_at r) v.

Definition status_eq_dec (a b : season_status) : {a = b} + {a <> b}.
Proof. decide equality. Defined.

Definition season_eq_dec (a b : season) : {a = b} + {a <> b}.
Proof.
  decide equality;
    try apply Z.eq_dec; try apply string_dec; try apply status_eq_dec.
  decide equality. apply string_dec.
Defined.

(** The statements the repo sends, one constructor per SQL text of the
    source; the arguments are the bound parameters. *)
Inductive statement : Type :=
| SelectAllOrdered                       (* ... ORDER BY start_at DESC, id DESC *)
| SelectBySlug (s : string)              (* ... WHERE slug = ? LIMIT 1 *)
| SelectActive                           (* ... WHERE status = 'active' LIMIT 1 *)
| UpdateSet (sets : list string) (vals : list jsval)
                                         (* UPDATE seasons SET <sets> WHERE slug = ? *)
| SelectBySlugForUpdate (s : string)     (* ... WHERE slug = ? FOR UPDATE *)
| SelectActiveForUpdate                  (* ... WHERE status = 'active' FOR UPDATE *)
| DemoteActiveExcept (s : string)        (* SET status = 'draft' WHERE status = 'active' AND slug <> ? *)
| PromoteBySlug (s : string).            (* SET status = 'active' WHERE slug = ? *)

(** The calls made on the driver and on a connection. *)
Inductive call : Type :=
| CreateConnection
| BeginTransaction
| Execute (q : statement)
| Commit
| Rollback
| End.

(** What [conn.execute] resolves to (its first component): the rows of a
    SELECT, or the header of an UPDATE with its [affectedRows]. *)
Inductive result : Type :=
| Rows (rows : list season)
| ResultSetHeader (affectedRows : nat).

Definition rows_of (r : result) : list season :=
  match r with
  | Rows rows => rows
  | ResultSetHeader _ => []
  end.

Definition affectedRows_of (r : result) : nat :=
  match r with
  | Rows _ => 0
  | ResultSetHeader n => n
  end.

(** The storage and the one connection a repo function holds at a time.
    - [seasons]: the committed table;
    - [pending]: the table as the open transaction sees it, if one is open;
    - [now]: the storage clock;
    - [faults]: for each coming storage call, whether it rejects and with
      which error (an exhausted schedule means the call succeeds);
    - [trace]: the storage calls made so far, oldest first. *)
Record world : Type := mkWorld {
  seasons : table;
  pending : option table;
  now : Z;
  faults : list (option js_error);
  trace : list call
}.

Definition set_seasons (t : table) (w : world) : world :=
  mkWorld t (pending w) (now w) (faults w) (trace w).
Definition set_pending (p : option table) (w : world) : world :=
  mkWorld (seasons w) p (now w) (faults w) (trace w).
Definition set_faults (f : list (option js_error)) (w : world) : world :=
  mkWorld (seasons w) (pending w) (now w) f (trace w).

(** A storage call is logged and takes one tick of the storage clock. *)
Definition logged (c : call) (w : world) : world :=
  mkWorld (seasons w) (pending w) (now w + 1) (faults w) (trace w ++ [c]).

(** The table a statement reads: the transaction's view when one is open. *)
Definition visible (w : world) : table :=
  match pending w with
  | Some t => t
  | None => seasons w
  end.

(** Where a statement writes: into the transaction when one is open,
    straight into the committed table otherwise (autocommit). *)
Definition store (t : table) (w : world) : world :=
  match pending w with
  | Some _ => set_pending (Some t) w
  | None => set_seasons t w
  end.

End Db.
Import Db.

(* ================================================================== *)
(** ** Async functions: state and exceptions *)
(* ================================================================== *)

Module Async.

(** An [async] function body run to completion. *)
Definition Async (A : Type) : Type := world -> completion A * world.

Definition ret {A} (a : A) : Async A := fun w => (Normal a, w).

Definition throw {A} (e : js_error) : Async A := fun w => (Abrupt e, w).

Definition bind {A B} (m : Async A) (k : A -> Async B) : Async B :=
  fun w =>
    match m w with
    | (Normal a, w1) => k a w1
    | (Abrupt e, w1) => (Abrupt e, w1)
    end.

(** [try { m } catch (err) { h err }] *)
Definition try_catch {A} (m : Async A) (h : js_error -> Async A) : Async A :=
  fun w =>
    match m w with
    | (Normal a, w1) => (Normal a, w1)
    | (Abrupt e, w1) => h e w1
    end.

(** [try { m } finally { f }]: [f] always runs; when it throws, its error
    replaces the completion of [m]. *)
Definition try_finally {A} (m : Async A) (f : Async unit) : Async A :=
  fun w =>
    match m w with
    | (r, w1) =>
        match f w1 with
        | (Normal _, w2) => (r, w2)
        | (Abrupt e, w2) => (Abrupt e, w2)
        end
    end.

End Async.
Import Async.

Declare Scope async_scope.
Delimit Scope async_scope with async.
Notation "x <- m ;; k" := (bind m (fun x => k))
(at level 61, m at next level, right associativity) : async_scope.
Notation "m ;; k" := (bind m (fun _ => k))
(at level 61, right associativity) : async_scope.

Local Open Scope async_scope.
Local Open Scope string_scope.

(* ================================================================== *)
(** ** What the SQL statements compute *)
(* ================================================================== *)

Module Sql.

(** [WHERE slug = ?] *)
Definition slug_is (s : string) (r : season) : bool := String.eqb (slug r) s.

(** [WHERE status = 'active'] *)
Definition is_active (r : season) : bool := status_eqb (status r) active.

(** [WHERE status = 'active' AND slug <> ?] *)
Definition active_other_than (s : string) (r : season) : bool :=
  is_active r && negb (slug_is s r).

(** Modelled from the spec: the DDL of [seasons] is not part of the sources;
    the spec calls the update timestamp storage-managed.  A row that an
    UPDATE really changes gets the clock as its [updated_at]; a row whose new
    values equal the old ones is left as it is. *)
Definition touch (clock : Z) (old new : season) : season :=
  if season_eq_dec old new then old else set_updated_at clock new.

(** [UPDATE seasons SET <set> WHERE <cond>] *)
Definition update_where (cond : season -> bool) (set : season -> season)
    (clock : Z) (t : table) : table :=
  map (fun r => if cond r then touch clock r (set r) else r) t.

(** The rows a WHERE clause matches. *)
Definition count_where (cond : season -> bool) (t : table) : nat :=
  List.length (filter cond t).

(** [ORDER BY start_at DESC, id DESC]: [a] may stand before [b]. *)
Definition listed_before (a b : season) : bool :=
  (start_at b <? start_at a)%Z
  || ((start_at a =? start_at b)%Z && (id b <=? id a)%Z).

Fixpoint insert_row (r : season) (l : list season) : list season :=
  match l with
  | [] => [r]
  | x :: xs => if listed_before r x then r :: l else x :: insert_row r xs
  end.

Fixpoint order_by_start_desc_id_desc (t : list season) : list season :=
  match t with
  | [] => []
  | r :: rs => insert_row r (order_by_start_desc_id_desc rs)
  end.

(** One [<column> = ?] of a SET list with the value bound to it; [None] when
    the server refuses the value for that column. *)
Definition set_clause (clause : string) (v : jsval) : option (season -> season) :=
  if String.eqb clause "name = ?" then
    match v with
    | JString s => Some (set_name s)
    | _ => None
    end
  else if String.eqb clause "description = ?" then
    match v with
    | JString s => Some (set_description (Some s))
    | JNull => Some (set_description None)
    | _ => None
    end
  else if String.eqb clause "start_at = ?" then
    match v with
    | JDate z => Some (set_start_at z)
    | _ => None
    end
  else if String.eqb clause "end_at = ?" then
    match v with
    | JDate z => Some (set_end_at z)
    | _ => None
    end
  else None.

(** Placeholders are bound in order: the SET list takes the first values and
    hands the remaining ones to the WHERE clause. *)
Fixpoint bind_sets (sets : list string) (vals : list jsval)
    : option ((season -> season) * list jsval) :=
  match sets with
  | [] => Some (fun r => r, vals)
  | c :: cs =>
      match vals with
      | [] => None
      | v :: vs =>
          match set_clause c v, bind_sets cs vs with
          | Some f, Some (g, rest) => Some (fun r => g (f r), rest)
          | _, _ => None
          end
      end
  end.

(** A statement run on the table it sees: the result and the new table, or
    [None] when the server answers with an error. *)
Definition run_statement (q : statement) (clock : Z) (t : table)
    : option (result * table) :=
  match q with
  | SelectAllOrdered => Some (Rows (order_by_start_desc_id_desc t), t)
  | SelectBySlug s => Some (Rows (firstn 1 (filter (slug_is s) t)), t)
  | SelectActive => Some (Rows (firstn 1 (filter is_active t)), t)
  | UpdateSet sets vals =>
      match bind_sets sets vals with
      | Some (f, [JString s]) =>
          Some (ResultSetHeader (count_where (slug_is s) t),
                update_where (slug_is s) f clock t)
      | _ => None
      end
  | SelectBySlugForUpdate s => Some (Rows (filter (slug_is s) t), t)
  | SelectActiveForUpdate => Some (Rows (filter is_active t), t)
  | DemoteActiveExcept s =>
      Some (ResultSetHeader (count_where (active_other_than s) t),
            update_where (active_other_than s) (set_status draft) clock t)
  | PromoteBySlug s =>
      Some (ResultSetHeader (count_where (slug_is s) t),
            update_where (slug_is s) (set_status active) clock t)
  end.

(** The error of a statement the server refuses. *)
Definition sql_error : js_error :=
  mkError "Error" "Incorrect arguments to mysqld_stmt_execute".

End Sql.
Import Sql.

(* ================================================================== *)
(** ** The mysql2 connection *)
(* ================================================================== *)

Module Conn.

(** Every call that goes to the storage is logged, takes the next entry of
    the fault schedule and rejects when that entry says so. *)
Definition storage_call {A} (c : call) (body : Async A) : Async A :=
  fun w =>
    let w1 := set_faults (tl (faults w)) (logged c w) in
    match hd None (faults w) with
    | Some e => (Abrupt e, w1)
    | None => body w1
    end.

(** [mysql.createConnection(dbConfig)]: a new connection has no open
    transaction. *)
Definition createConnection : Async unit :=
  storage_call CreateConnection (fun w => (Normal tt, set_pending None w)).

(** [conn.beginTransaction()] *)
Definition beginTransaction : Async unit :=
  storage_call BeginTransaction
    (fun w => (Normal tt, set_pending (Some (seasons w)) w)).

(** [conn.execute(sql, params)] *)
Definition execute (q : statement) : Async result :=
  storage_call (Execute q)
    (fun w =>
       match run_statement q (now w) (visible w) with
       | Some (r, t') => (Normal r, store t' w)
       | None => (Abrupt sql_error, w)
       end).

(** [conn.commit()] *)
Definition commit : Async unit :=
  storage_call Commit
    (fun w => (Normal tt, set_pending None (set_seasons (visible w) w))).

(** [conn.rollback()] *)
Definition rollback : Async unit :=
  storage_call Rollback (fun w => (Normal tt, set_pending None w)).

(** [conn.end()]: mysql2's promise wrapper resolves it whatever the server
    says; closing the connection drops an open transaction. *)
Definition conn_end : Async unit :=
  fun w => (Normal tt, set_pending None (logged End w)).

End Conn.
Import Conn.

(* ================================================================== *)
(** ** The seasons repo: [createSeasonsRepo] *)
(* ================================================================== *)

(** The [patch] object of [patchSeasonBySlug]; a property the caller left out
    reads as [JUndefined]. *)
Module Patch.
Record t : Type := mk {
  name : jsval;
  description : jsval;
  startAt : jsval;
  endAt : jsval
}.
End Patch.

Module SeasonsRepo.

(** [Array.prototype.push] *)
Definition push {A} (l : list A) (x : A) : list A := (l ++ [x])%list.

(** [withConn(fn)]: the connection is made before the [try]; [conn.end()]
    runs in the [finally]. *)
Definition withConn {A} (fn : unit -> Async A) : Async A :=
  conn <- createConnection ;;
  try_finally (fn conn) conn_end.

Definition listSeasons : Async (list season) :=
  withConn (fun conn =>
    r <- execute SelectAllOrdered ;;
    ret (rows_of r)).

(** [rows[0] ?? null]: [None] stands for [null]. *)
Definition getSeasonBySlug (slug : string) : Async (option season) :=
  withConn (fun conn =>
    r <- execute (SelectBySlug slug) ;;
    ret (hd_error (rows_of r))).

Definition getActiveSeason : Async (option season) :=
  withConn (fun conn =>
    r <- execute SelectActive ;;
    ret (hd_error (rows_of r))).

(** The SET list and the values [patchSeasonBySlug] builds before it looks
    at their number. *)
Definition patch_sets (patch : Patch.t) : list string * list jsval :=
  let sets := [] in
  let vals := [] in
  let '(sets, vals) :=
    if loose_neq_null (Patch.name patch)
    then (push sets "name = ?", push vals (Patch.name patch))
    else (sets, vals) in
  let '(sets, vals) :=
    if strict_neq_undefined (Patch.description patch)
    then (push sets "description = ?", push vals (Patch.description patch))
    else (sets, vals) in
  let '(sets, vals) :=
    if loose_neq_null (Patch.startAt patch)
    then (push sets "start_at = ?", push vals (Patch.startAt patch))
    else (sets, vals) in
  let '(sets, vals) :=
    if loose_neq_null (Patch.endAt patch)
    then (push sets "end_at = ?", push vals (Patch.endAt patch))
    else (sets, vals) in
  (sets, vals).

(** [result.affectedRows || 0] is the number itself. *)
Definition patchSeasonBySlug (slug : string) (patch : Patch.t) : Async nat :=
  let '(sets, vals) := patch_sets patch in
  if Nat.eqb (List.length sets) 0 then ret 0
  else
    let vals := push vals (JString slug) in
    withConn (fun conn =>
      r <- execute (UpdateSet sets vals) ;;
      ret (affectedRows_of r)).

(** The object [activateSeasonTx] resolves to: [{ ok, error?, detail? }]. *)
Record activation : Type := mkActivation {
  ok : bool;
  error : option string;
  detail : option string
}.

Definition activateSeasonTx (slug : string) : Async activation :=
  conn <- createConnection ;;
  try_finally
    (try_catch
       (beginTransaction ;;
        (* Lock target row *)
        r <- execute (SelectBySlugForUpdate slug) ;;
        let targetRows := rows_of r in
        match hd_error targetRows with
        | None =>
            rollback ;;
            ret (mkActivation false (Some "season_not_found") None)
        | Some target =>
            if status_eqb (status target) closed then
              rollback ;;
              ret (mkActivation false (Some "season_closed") None)
            else
              (* Lock any active season rows (if any) *)
              execute SelectActiveForUpdate ;;
              (* Demote current active -> draft (do NOT auto-close) *)
              execute (DemoteActiveExcept slug) ;;
              (* Promote target -> active *)
              execute (PromoteBySlug slug) ;;
              commit ;;
              ret (mkActivation true None None)
        end)
       (fun err =>
          try_catch rollback (fun _ => ret tt) ;;
          ret (mkActivation false (Some "tx_failed")
                            (Some (message_or_string err)))))
    conn_end.

(** A sequence of activation calls, each run to completion before the next:
    the completions in call order and the world after the last one. *)
Fixpoint activate_each (slugs : list string) (w : world)
    : list (completion activation) * world :=
  match slugs with
  | [] => ([], w)
  | s :: rest =>
      let '(r, w1) := activateSeasonTx s w in
      let '(rs, w2) := activate_each rest w1 in
      (r :: rs, w2)
  end.

End SeasonsRepo.
Import SeasonsRepo.

(** A world to run examples in: nothing pending, no fault scheduled, nothing
    traced. *)
Definition quiet (t : table) : world := mkWorld t None 0 [] [].

Definition row (i : Z) (s : string) (start : Z) (st : season_status) : season :=
  mkSeason i s s None start (start + 100) st 0 0.

Definition example_table : table :=
  [ row 1 "a" 10 active; row 2 "b" 20 draft; row 3 "c" 30 closed ].

(* ================================================================== *)
(** ** Closing a season: [setSeasonClosed] *)
(* ================================================================== *)

Module Closing.

(** [run_statement] knows the SET clauses a patch can build.  The UPDATE of
    [setSeasonClosed] has the same shape with the one clause
    [status = 'closed'], which takes no value: the only value bound is the
    slug of the WHERE clause. *)
Definition run_closing_statement (q : statement) (clock : Z) (t : table)
    : option (result * table) :=
  match q with
  | UpdateSet [clause] [JString s] =>
      if String.eqb clause "status = 'closed'" then
        Some (ResultSetHeader (count_where (slug_is s) t),
              update_where (slug_is s) (set_status closed) clock t)
      else run_statement q clock t
  | _ => run_statement q clock t
  end.

(** [conn.execute(sql, params)] for that statement. *)
Definition execute_closing (q : statement) : Async result :=
  storage_call (Execute q)
    (fun w =>
       match run_closing_statement q (now w) (visible w) with
       | Some (r, t') => (Normal r, store t' w)
       | None => (Abrupt sql_error, w)
       end).

Definition setSeasonClosed (slug : string) : Async nat :=
  withConn (fun conn =>
    r <- execute_closing (UpdateSet ["status = 'closed'"] [JString slug]) ;;
    ret (affectedRows_of r)).

(** The operations of the repo that write, as an administrator chains them,
    each run to completion before the next. *)
Inductive operation : Type :=
| Activate (slug : string)
| PatchSeason (slug : string) (patch : Patch.t)
| Close (slug : string).

Definition run_operation (o : operation) (w : world) : world :=
  match o with
  | Activate s => snd (activateSeasonTx s w)
  | PatchSeason s p => snd (patchSeasonBySlug s p w)
  | Close s => snd (setSeasonClosed s w)
  end.

Definition run_operations (os : list operation) (w : world) : world :=
  fold_left (fun w o => run_operation o w) os w.

End Closing.
Import Closing.

(* ================================================================== *)
(** ** [normalizeSlug] (index.js) *)
(* ================================================================== *)

Module Slug.

Local Open Scope N_scope.

(** A JavaScript string: its UTF-16 code units. *)
Definition jsstring : Type := list N.

(** The code units of a literal of ASCII characters. *)
Definition of_string (s : string) : jsstring :=
  map N_of_ascii (list_ascii_of_string s).

(** What a caller hands to [normalizeSlug]: a string, [null] or
    [undefined]. *)
Inductive input : Type :=
| Undefined
| Null
| Str (s : jsstring).

(** [String(input || "")]: [null], [undefined] and the empty string are
    falsy. *)
Definition to_string (i : input) : jsstring :=
  match i with
  | Undefined | Null => []
  | Str s => s
  end.

Definition hyphen : N := 45.

(** The code units [\s] matches and [trim] removes: WhiteSpace and
    LineTerminator of ECMAScript. *)
Definition is_whitespace (c : N) : bool :=
  existsb (N.eqb c)
    [9; 10; 11; 12; 13; 32; 160; 5760; 8232; 8233; 8239; 8287; 12288; 65279]
  || ((8192 <=? c) && (c <=? 8202)).

Definition is_hyphen (c : N) : bool := c =? hyphen.

(** [[a-z0-9]] *)
Definition is_alnum (c : N) : bool :=
  ((97 <=? c) && (c <=? 122)) || ((48 <=? c) && (c <=? 57)).

(** [[a-z0-9-]] *)
Definition is_slug_unit (c : N) : bool := is_alnum c || is_hyphen c.

(** [String.prototype.trim] *)
Fixpoint trimStart (s : jsstring) : jsstring :=
  match s with
  | [] => []
  | c :: rest => if is_whitespace c then trimStart rest else s
  end.

Definition trimEnd (s : jsstring) : jsstring := rev (trimStart (rev s)).

Definition trim (s : jsstring) : jsstring := trimEnd (trimStart s).

(** [s.replace(/p+/g, by)]: every maximal run of units matching [p] becomes
    the single unit [by], written where the run ends. *)
Fixpoint replace_runs (p : N -> bool) (by_unit : N) (s : jsstring) : jsstring :=
  match s with
  | [] => []
  | c :: rest =>
      if p c then
        match rest with
        | [] => [by_unit]
        | c' :: _ =>
            if p c' then replace_runs p by_unit rest
            else by_unit :: replace_runs p by_unit rest
        end
      else c :: replace_runs p by_unit rest
  end.

(** [s.replace(/^-|-$/g, "")]: a hyphen at the start goes, then a hyphen at
    the end. *)
Definition strip_leading_hyphen (s : jsstring) : jsstring :=
  match s with
  | c :: rest => if is_hyphen c then rest else s
  | [] => []
  end.

Fixpoint strip_trailing_hyphen (s : jsstring) : jsstring :=
  match s with
  | [] => []
  | [c] => if is_hyphen c then [] else [c]
  | c :: rest => c :: strip_trailing_hyphen rest
  end.

Definition strip_edge_hyphens (s : jsstring) : jsstring :=
  strip_trailing_hyphen (strip_leading_hyphen s).

Section Lowercase.

(** [String.prototype.toLowerCase] maps the ASCII capitals to the small
    letters and leaves the other ASCII units alone.  What it makes of a unit
    outside ASCII is the business of the Unicode tables of the runtime:
    [unicode_lower before c after] is the image of the unit [c] standing
    between [before] and [after] (the image may depend on the context, as
    for a final sigma or a surrogate pair). *)
Variable unicode_lower : jsstring -> N -> jsstring -> jsstring.

Definition ascii_lower (c : N) : N :=
  if (65 <=? c) && (c <=? 90) then c + 32 else c.

Fixpoint lower_from (before s : jsstring) : jsstring :=
  match s with
  | [] => []
  | c :: rest =>
      ((if c <? 128 then [ascii_lower c] else unicode_lower before c rest)
       ++ lower_from (before ++ [c]) rest)%list
  end.

Definition toLowerCase (s : jsstring) : jsstring := lower_from [] s.

Definition normalizeSlug (i : input) : jsstring :=
  strip_edge_hyphens
    (replace_runs is_hyphen hyphen
       (filter is_slug_unit
          (replace_runs is_whitespace hyphen
             (toLowerCase (trim (to_string i)))))).

End Lowercase.

(** A table for examples: the Kelvin sign becomes [k], the dotted capital I
    becomes [i] and a combining dot, the other units stay. *)
Definition sample_lower (before : jsstring) (c : N) (after : jsstring)
    : jsstring :=
  if c =? 8490 then [107]
  else if c =? 304 then [105; 775]
  else [c].

(** No two hyphens side by side. *)
Fixpoint no_double_hyphen (s : jsstring) : bool :=
  match s with
  | [] => true
  | c :: rest =>
      match rest with
      | [] => true
      | c' :: _ => negb (is_hyphen c && is_hyphen c') && no_double_hyphen rest
      end
  end.

(** The shape of a slug: units of [[a-z0-9-]] only, no hyphen first or last,
    no two hyphens side by side. *)
Definition is_slug (s : jsstring) : bool :=
  forallb is_slug_unit s
  && no_double_hyphen s
  && negb (is_hyphen (hd 0 s))
  && negb (is_hyphen (last s 0)).

End Slug.

(* ================================================================== *)
(** ** Roles, the admin key and the allowed origin (index.js) *)
(* ================================================================== *)

Module Auth.

Import Slug.
Local Open Scope N_scope.

(** [a === b] on strings. *)
Fixpoint jsstring_eqb (a b : jsstring) : bool :=
  match a, b with
  | [], [] => true
  | x :: a', y :: b' => (x =? y) && jsstring_eqb a' b'
  | _, _ => false
  end.

(** A value that is a string or [undefined] (an environment variable, a
    request header): [None] is [undefined]. *)
Definition maybe_string : Type := option jsstring.

(** [a === b] on such values. *)
Definition strict_eq (a b : maybe_string) : bool :=
  match a, b with
  | None, None => true
  | Some x, Some y => jsstring_eqb x y
  | _, _ => false
  end.

(** [!!v]: [undefined] and the empty string are falsy. *)
Definition truthy (v : maybe_string) : bool :=
  match v with
  | Some (_ :: _) => true
  | _ => false
  end.

(** [v || fallback] for a value that is a string, [null] or [undefined]. *)
Definition or_else (v : input) (fallback : jsstring) : jsstring :=
  match v with
  | Str (c :: s) => c :: s
  | _ => fallback
  end.

(** The part of a request the helpers read: [req.headers["x-admin-key"]]. *)
Record request : Type := mkRequest { x_admin_key : maybe_string }.

(** [res.status(code).json({ ok: false, error })] *)
Record response : Type := mkResponse {
  res_status : nat;
  res_ok : bool;
  res_error : string
}.

(** The responses sent on [res] so far and the number of [next()] calls. *)
Record exchange : Type := mkExchange {
  sent : list response;
  nexts : nat
}.

Definition send (code : nat) (err : string) (x : exchange) : exchange :=
  mkExchange (sent x ++ [mkResponse code false err])%list (nexts x).

Definition call_next (x : exchange) : exchange :=
  mkExchange (sent x) (S (nexts x)).

Section Process.

(** The lowercase table of the runtime (see [Slug.toLowerCase]) and
    [process.env.ADMIN_KEY]. *)
Variable unicode_lower : jsstring -> N -> jsstring -> jsstring.
Variable ADMIN_KEY : maybe_string.

Definition requireAdmin (req : request) (res : exchange) : bool * exchange :=
  if negb (truthy ADMIN_KEY) || negb (strict_eq (x_admin_key req) ADMIN_KEY)
  then (false, send 401 "Unauthorized" res)
  else (true, res).

Definition isAdminKey (req : request) : bool :=
  truthy ADMIN_KEY && strict_eq (x_admin_key req) ADMIN_KEY.

Definition getEffectiveRole (req : request) (userRole : input) : jsstring :=
  if isAdminKey req then of_string "admin"
  else toLowerCase unicode_lower (or_else userRole (of_string "user")).

Definition roleRank (role : input) : nat :=
  let r := toLowerCase unicode_lower (or_else role (of_string "user")) in
  if jsstring_eqb r (of_string "admin") then 3%nat
  else if jsstring_eqb r (of_string "editor") then 2%nat
  else 1%nat.

(** [requireRole(minRole)] applied to [(req, res, next)]. *)
Definition requireRole (minRole : input) (req : request) (res : exchange)
    : exchange :=
  let effective := getEffectiveRole req Null in
  if Nat.ltb (roleRank (Str effective)) (roleRank minRole)
  then send 403 "Forbidden" res
  else call_next res.

Definition requireMinRole (req : request) (res : exchange) (minRole : input)
    : bool * exchange :=
  let effective := getEffectiveRole req Null in
  if Nat.ltb (roleRank (Str effective)) (roleRank minRole)
  then (false, send 403 "Forbidden" res)
  else (true, res).

End Process.

(** [s.replace(/\/$/, "")]: a slash at the end goes. *)
Definition slash : N := 47.

Fixpoint strip_trailing_slash (s : jsstring) : jsstring :=
  match s with
  | [] => []
  | [c] => if c =? slash then [] else [c]
  | c :: rest => c :: strip_trailing_slash rest
  end.

Definition default_origin : jsstring :=
  of_string "https://auth.haxixesmokeclub.com".

(** [allowedOrigin], from [process.env.ALLOWED_ORIGIN]. *)
Definition allowedOrigin (env : maybe_string) : jsstring :=
  match strip_trailing_slash
          (trim (match env with
                 | Some (c :: s) => c :: s
                 | _ => []
                 end)) with
  | [] => default_origin
  | c :: s => c :: s
  end.

(** [corsOptions.origin]: the boolean handed to [cb]. *)
Definition cors_origin (env : maybe_string) (origin : maybe_string) : bool :=
  if negb (truthy origin) then true
  else strict_eq origin (Some (allowedOrigin env)).

End Auth.

(* ================================================================== *)
(** ** Sessions (sessions.js) *)
(* ================================================================== *)

Module Sessions.

Import Slug Auth.

(** A row of [sessions], with the columns the statements name. *)
Record session : Type := mkSession {
  sid : jsstring;
  user_id : Z;
  expires_at : Z;
  revoked_at : option Z
}.

(** The statements of sessions.js with their bound parameters. *)
Inductive session_statement : Type :=
| InsertSession (id : jsstring) (user : Z) (expires : Z)
    (* INSERT INTO sessions (id, user_id, expires_at) VALUES (?, ?, ?) *)
| SelectUser (id : jsstring)
    (* SELECT user_id ... WHERE id = ? AND revoked_at IS NULL
       AND expires_at > NOW() LIMIT 1 *)
| RevokeSession (id : jsstring).
    (* UPDATE sessions SET revoked_at = NOW()
       WHERE id = ? AND revoked_at IS NULL *)

Inductive session_call : Type :=
| Connect
| Run (q : session_statement)
| Disconnect.

(** The process and the storage as sessions.js sees them:
    - [sessions]: the table, in storage order;
    - [date_now]: what [Date.now()] reads, in milliseconds;
    - [sql_now]: what [NOW()] reads on the server;
    - [entropy], [drawn]: the bytes [crypto.randomBytes] hands out and how
      many of them are gone;
    - [failures]: for each coming storage call, whether it rejects;
    - [calls]: the storage calls made so far, oldest first. *)
Record process : Type := mkProcess {
  sessions : list session;
  date_now : Z;
  sql_now : Z;
  entropy : nat -> N;
  drawn : nat;
  failures : list (option js_error);
  calls : list session_call
}.

Definition set_sessions (t : list session) (w : process) : process :=
  mkProcess t (date_now w) (sql_now w) (entropy w) (drawn w) (failures w)
            (calls w).

Definition set_sql_now (d : Z) (w : process) : process :=
  mkProcess (sessions w) (date_now w) d (entropy w) (drawn w) (failures w)
            (calls w).

(** An [async] function of sessions.js run to completion. *)
Definition Task (A : Type) : Type := process -> completion A * process.

Definition task_ret {A} (a : A) : Task A := fun w => (Normal a, w).

Definition task_bind {A B} (m : Task A) (k : A -> Task B) : Task B :=
  fun w =>
    match m w with
    | (Normal a, w1) => k a w1
    | (Abrupt e, w1) => (Abrupt e, w1)
    end.

(** [crypto.randomBytes(n)] *)
Definition randomBytes (n : nat) : Task (list N) :=
  fun w =>
    (Normal (map (fun i => (entropy w (drawn w + i)%nat mod 256)%N) (seq 0 n)),
     mkProcess (sessions w) (date_now w) (sql_now w) (entropy w)
               (drawn w + n)%nat (failures w) (calls w)).

(** [buffer.toString("hex")] *)
Definition hex_digit (d : N) : N :=
  if (d <? 10)%N then (48 + d)%N else (87 + d)%N.

Definition hex_of_byte (b : N) : jsstring :=
  [hex_digit (b / 16)%N; hex_digit (b mod 16)%N].

Definition toString_hex (bytes : list N) : jsstring :=
  flat_map hex_of_byte bytes.

(** [Date.now()] *)
Definition Date_now : Task Z := fun w => (Normal (date_now w), w).

(** A call that goes to the storage: logged, and rejected when the next
    entry of the schedule says so. *)
Definition session_call_to {A} (c : session_call) (body : Task A) : Task A :=
  fun w =>
    let w1 := mkProcess (sessions w) (date_now w) (sql_now w) (entropy w)
                        (drawn w) (tl (failures w)) (calls w ++ [c])%list in
    match hd None (failures w) with
    | Some e => (Abrupt e, w1)
    | None => body w1
    end.

Definition createConnection : Task unit :=
  session_call_to Connect (task_ret tt).

(** [connection.end()] resolves whatever the server says. *)
Definition connection_end : Task unit :=
  fun w =>
    (Normal tt,
     mkProcess (sessions w) (date_now w) (sql_now w) (entropy w) (drawn w)
               (failures w) (calls w ++ [Disconnect])%list).

(** [WHERE id = ?] *)
Definition sid_is (id : jsstring) (r : session) : bool :=
  jsstring_eqb (sid r) id.

(** [WHERE id = ? AND revoked_at IS NULL AND expires_at > NOW()] *)
Definition is_live (id : jsstring) (clock : Z) (r : session) : bool :=
  sid_is id r
  && match revoked_at r with None => true | Some _ => false end
  && (clock <? expires_at r)%Z.

(** [WHERE id = ? AND revoked_at IS NULL] *)
Definition is_unrevoked (id : jsstring) (r : session) : bool :=
  sid_is id r && match revoked_at r with None => true | Some _ => false end.

Definition duplicate_entry : js_error :=
  mkError "Error" "Duplicate entry for key 'PRIMARY'".

Section Settings.

(** What the sources do not fix: [ttlMinutes] of [getCookieConfig] (read from
    the environment), whether the DDL of [sessions] declares [id] a key, and
    the instant the server keeps in [expires_at] for a given [Date] (the
    precision of the column). *)
Variable ttlMinutes : Z.
Variable id_is_key : bool.
Variable as_datetime : Z -> Z.

(** A statement run on the table: the rows it returns and the new table, or
    [None] when the server refuses it. *)
Definition run_session_statement (q : session_statement) (clock : Z)
    (t : list session) : option (list session * list session) :=
  match q with
  | InsertSession id user expires =>
      if id_is_key && existsb (sid_is id) t then None
      else Some ([], (t ++ [mkSession id user (as_datetime expires) None])%list)
  | SelectUser id => Some (firstn 1 (filter (is_live id clock) t), t)
  | RevokeSession id =>
      Some ([],
            map (fun r =>
                   if is_unrevoked id r
                   then mkSession (sid r) (user_id r) (expires_at r) (Some clock)
                   else r) t)
  end.

(** [connection.execute(sql, params)] *)
Definition execute_session (q : session_statement) : Task (list session) :=
  session_call_to (Run q)
    (fun w =>
       match run_session_statement q (sql_now w) (sessions w) with
       | Some (rows, t') => (Normal rows, set_sessions t' w)
       | None => (Abrupt duplicate_entry, w)
       end).

(** [nowPlusMinutes(minutes)], as the instant of the [Date] it builds. *)
Definition nowPlusMinutes (minutes : Z) : Task Z :=
  task_bind Date_now (fun now => task_ret (now + minutes * 60 * 1000)%Z).

Definition createSession (userId : Z) : Task jsstring :=
  task_bind (randomBytes 32) (fun bytes =>
  let sid := toString_hex bytes in
  task_bind (nowPlusMinutes ttlMinutes) (fun expiresAt =>
  task_bind createConnection (fun _ =>
  task_bind (execute_session (InsertSession sid userId expiresAt)) (fun _ =>
  task_bind connection_end (fun _ =>
  task_ret sid))))).

(** [rows[0]?.user_id ?? null]; [None] stands for [null]. *)
Definition getSession (sid : input) : Task (option Z) :=
  match sid with
  | Str (c :: s) =>
      task_bind createConnection (fun _ =>
      task_bind (execute_session (SelectUser (c :: s))) (fun rows =>
      task_bind connection_end (fun _ =>
      task_ret (option_map user_id (hd_error rows)))))
  | _ => task_ret None
  end.

Definition revokeSession (sid : input) : Task unit :=
  match sid with
  | Str (c :: s) =>
      task_bind createConnection (fun _ =>
      task_bind (execute_session (RevokeSession (c :: s))) (fun _ =>
      connection_end))
  | _ => task_ret tt
  end.

End Settings.

(** The next [n] storage calls succeed. *)
Fixpoint quiet_for (n : nat) (fs : list (option js_error)) : bool :=
  match n, fs with
  | O, _ => true
  | S _, [] => true
  | S n', None :: rest => quiet_for n' rest
  | S _, Some _ :: _ => false
  end.

(** The session id [createSession] is about to draw. *)
Definition next_sid (w : process) : jsstring :=
  toString_hex
    (map (fun i => (entropy w (drawn w + i)%nat mod 256)%N) (seq 0 32)).

(** [[0-9a-f]] *)
Definition is_hex_digit (c : N) : bool :=
  ((48 <=? c) && (c <=? 57))%N || ((97 <=? c) && (c <=? 102))%N.

(** A process to run examples in: one session of user 3 with id [ab], the
    clocks at 1000, the byte [i mod 256] as the [i]-th random byte, no
    failure scheduled. *)
Definition sample_process : process :=
  mkProcess [mkSession (of_string "ab") 3 5000 None] 1000 1000
            (fun i => N.of_nat i) 0 [] [].

End Sessions.

(* ================================================================== *)
(** ** The session cookie (sessions.js) and the logout route (index.js) *)
(* ================================================================== *)

Module Cookies.

Import Slug Auth Sessions.

(** The environment variables [getCookieConfig] reads as strings. *)
Record environment : Type := mkEnvironment {
  COOKIE_NAME : maybe_string;
  COOKIE_SAMESITE : maybe_string;
  COOKIE_SECURE : maybe_string
}.

(** [process.env.X || fallback] *)
Definition env_or (v : maybe_string) (fallback : jsstring) : jsstring :=
  match v with
  | Some (c :: s) => c :: s
  | _ => fallback
  end.

(** What [getCookieConfig] returns. *)
Record cookie_config : Type := mkCookieConfig {
  name : jsstring;
  sameSite : jsstring;
  secure : bool;
  ttl : Z
}.

(** The options of a [res.cookie] call. *)
Record cookie_options : Type := mkCookieOptions {
  opt_httpOnly : bool;
  opt_secure : bool;
  opt_sameSite : jsstring;
  opt_path : jsstring;
  opt_maxAge : Z
}.

(** What a handler does on [res]. *)
Inductive res_call : Type :=
| Cookie (cookie_name value : jsstring) (options : cookie_options)
    (* res.cookie(name, value, options) *)
| JsonOk.
    (* res.json({ ok: true }) *)

(** [req.cookies]: the object cookie-parser builds, as the list of its own
    properties; [None] when the request has no such object. *)
Definition cookie_jar : Type := option (list (jsstring * jsstring)).

Fixpoint own_property (key : jsstring) (o : list (jsstring * jsstring))
    : maybe_string :=
  match o with
  | [] => None
  | (k, v) :: rest => if jsstring_eqb k key then Some v else own_property key rest
  end.

Section Process.

(** The lowercase table of the runtime and [ttlMinutes], that is
    [Number(process.env.SESSION_TTL_MINUTES || 60 * 24 * 7)]. *)
Variable unicode_lower : jsstring -> N -> jsstring -> jsstring.
Variable ttlMinutes : Z.

Definition getCookieConfig (env : environment) : cookie_config :=
  mkCookieConfig
    (trim (env_or (COOKIE_NAME env) (of_string "hsc_sid")))
    (toLowerCase unicode_lower (env_or (COOKIE_SAMESITE env) (of_string "lax")))
    (jsstring_eqb
       (toLowerCase unicode_lower (env_or (COOKIE_SECURE env) (of_string "true")))
       (of_string "true"))
    ttlMinutes.

Definition setSessionCookie (env : environment) (res : list res_call)
    (sid : jsstring) : list res_call :=
  let cfg := getCookieConfig env in
  (res ++ [Cookie (name cfg) sid
                  (mkCookieOptions true (secure cfg) (sameSite cfg)
                                   (of_string "/") (ttl cfg * 60 * 1000))])%list.

Definition clearSessionCookie (env : environment) (res : list res_call)
    : list res_call :=
  let cfg := getCookieConfig env in
  (res ++ [Cookie (name cfg) []
                  (mkCookieOptions true (secure cfg) (sameSite cfg)
                                   (of_string "/") 0)])%list.

(** [req.cookies?.[name] || null] *)
Definition readSessionId (env : environment) (cookies : cookie_jar) : input :=
  match cookies with
  | None => Null
  | Some o =>
      match own_property (name (getCookieConfig env)) o with
      | Some (c :: s) => Str (c :: s)
      | _ => Null
      end
  end.

(** What the sources do not fix about the [sessions] table (see
    [Sessions.run_session_statement]). *)
Variable id_is_key : bool.
Variable as_datetime : Z -> Z.

(** The handler of [POST /auth/logout]: what it does on [res] and the
    process it leaves.  The [catch] swallows a rejection of
    [revokeSession]. *)
Definition logout (env : environment) (dbReady : bool) (cookies : cookie_jar)
    (res : list res_call) (w : process) : list res_call * process :=
  let sid := readSessionId env cookies in
  let w1 :=
    match sid with
    | Str (c :: s) =>
        if dbReady then snd (revokeSession id_is_key as_datetime sid w) else w
    | _ => w
    end in
  ((clearSessionCookie env res ++ [JsonOk])%list, w1).

End Process.

End Cookies.

(* ================================================================== *)
(** ** Creating a news item: [POST /admin/news] (index.js) *)
(* ================================================================== *)

Module News.

Import Slug Auth.

(** The fields the handler takes from [req.body || {}]; a field the body
    does not have, or any field of a missing body, is [Undefined]. *)
Record news_body : Type := mkNewsBody {
  body_slug : input;
  body_title : input;
  body_excerpt : input;
  body_content : input;
  body_image_url : input
}.

Definition no_body : news_body :=
  mkNewsBody Undefined Undefined Undefined Undefined Undefined.

(** [req.body || {}] *)
Definition body_or_empty (body : option news_body) : news_body :=
  match body with
  | Some b => b
  | None => no_body
  end.

(** [!v] for a field. *)
Definition falsy (v : input) : bool :=
  match v with
  | Str (_ :: _) => false
  | _ => true
  end.

(** [v != null ? String(v).trim() : null]; [None] is [null]. *)
Definition trimmed_or_null (v : input) : maybe_string :=
  match v with
  | Str s => Some (trim s)
  | _ => None
  end.

(** The values bound to the INSERT, in the order of its placeholders. *)
Record insert_params : Type := mkInsertParams {
  param_slug : jsstring;
  param_title : jsstring;
  param_excerpt : maybe_string;
  param_content : jsstring;
  param_image_url : maybe_string
}.

(** What the handler sends. *)
Inductive reply : Type :=
| Refused (r : response)
    (* res.status(code).json({ ok: false, error }) *)
| Created (id : Z) (slug : jsstring).
    (* res.status(201).json({ ok: true, id, slug, status: "draft" }) *)

(** [hay.includes(needle)] *)
Fixpoint starts_with (needle hay : jsstring) : bool :=
  match needle, hay with
  | [], _ => true
  | _ :: _, [] => false
  | x :: needle', y :: hay' => (x =? y)%N && starts_with needle' hay'
  end.

Fixpoint includes (needle hay : jsstring) : bool :=
  starts_with needle hay
  || match hay with
     | [] => false
     | _ :: hay' => includes needle hay'
     end.

Section Process.

Variable unicode_lower : jsstring -> N -> jsstring -> jsstring.
Variable ADMIN_KEY : maybe_string.

(** The [catch] of the handler: the reply for a storage error. *)
Definition reply_to_error (err : js_error) : reply :=
  let msg := of_string (message_or_string err) in
  if includes (of_string "duplicate") (toLowerCase unicode_lower msg)
  then Refused (mkResponse 409 false "slug_already_exists")
  else Refused (mkResponse 500 false "db_error").

(** The handler, given what the storage will answer: [connecting] is the
    outcome of [mysql.createConnection], [inserting] that of the INSERT
    (its [insertId] when it goes through).  The result is the reply and the
    INSERTs sent to the storage. *)
Definition createNews (dbReady : bool) (req : request)
    (body : option news_body)
    (connecting : completion unit) (inserting : completion Z)
    : reply * list insert_params :=
  let '(allowed, res) :=
    requireMinRole unicode_lower ADMIN_KEY req (mkExchange [] 0)
                   (Str (of_string "editor")) in
  if negb allowed then
    (match sent res with
     | r :: _ => Refused r
     | [] => Refused (mkResponse 403 false "Forbidden")
     end, [])
  else if negb dbReady then
    (Refused (mkResponse 503 false "db_not_ready"), [])
  else
    let b := body_or_empty body in
    if falsy (body_slug b) || falsy (body_title b) || falsy (body_content b)
    then (Refused (mkResponse 400 false "missing_fields"), [])
    else
      let cleanSlug := normalizeSlug unicode_lower (body_slug b) in
      match cleanSlug with
      | [] => (Refused (mkResponse 400 false "invalid_slug"), [])
      | _ :: _ =>
          match connecting with
          | Abrupt err => (reply_to_error err, [])
          | Normal _ =>
              let params :=
                mkInsertParams cleanSlug
                               (trim (to_string (body_title b)))
                               (trimmed_or_null (body_excerpt b))
                               (to_string (body_content b))
                               (trimmed_or_null (body_image_url b)) in
              match inserting with
              | Abrupt err => (reply_to_error err, [params])
              | Normal insertId => (Created insertId cleanSlug, [params])
              end
          end
      end.

(** The key [GET /content/news/:slug] looks a published item up with:
    [String(req.params.slug || "").trim().toLowerCase()]. *)
Definition lookup_key (param : input) : jsstring :=
  toLowerCase unicode_lower (trim (to_string param)).

End Process.

End News.

(* ================================================================== *)
(** ** Vocabulary of the properties *)
(* ================================================================== *)

(** The next [n] storage calls succeed. *)
Fixpoint calm (n : nat) (fs : list (option js_error)) : bool :=
  match n, fs with
  | O, _ => true
  | S _, [] => true
  | S n', None :: rest => calm n' rest
  | S _, Some _ :: _ => false
  end.

(** The data model's key: no two rows share a slug. *)
Definition unique_slugs (t : table) : Prop := NoDup (map slug t).

(** The single-active invariant. *)
Definition at_most_one_active (t : table) : Prop :=
  (count_where is_active t <= 1)%nat.

(** The status of the season a slug names, if there is one. *)
Definition status_of (s : string) (t : table) : option season_status :=
  option_map status (find (slug_is s) t).

(** The demote step and the promote step of an activation, as the UPDATEs
    of [activateSeasonTx] run them. *)
Definition demote (s : string) (clock : Z) (t : table) : table :=
  update_where (active_other_than s) (set_status draft) clock t.

Definition promote (s : string) (clock : Z) (t : table) : table :=
  update_where (slug_is s) (set_status active) clock t.

(** The table a committed activation leaves, for a call that started at
    clock [c]: the demote is the fifth storage call, the promote the sixth. *)
Definition activated (s : string) (c : Z) (t : table) : table :=
  promote s (c + 6) (demote s (c + 5) t).

(** The rows an activation goes through with: the slug names a row (the
    first one, should there be several) and that row is not closed. *)
Definition activatable (s : string) (t : table) : bool :=
  match hd_error (filter (slug_is s) t) with
  | Some target => negb (status_eqb (status target) closed)
  | None => false
  end.

(** The status an activation of [s] gives the season named [s'], whose
    status was [st]. *)
Definition activated_status (s s' : string) (st : season_status)
    : season_status :=
  if String.eqb s' s then active
  else match st with
       | active => draft
       | _ => st
       end.

(** A schedule whose first fault is [e], at storage call number [k] of the
    coming calls (numbered from 0). *)
Definition fault_at (k : nat) (e : js_error) (rest : list (option js_error))
    : list (option js_error) :=
  (repeat None k ++ Some e :: rest)%list.

(** The result of an activation whose transaction failed with [e]. *)
Definition tx_failed (e : js_error) : activation :=
  mkActivation false (Some "tx_failed") (Some (message_or_string e)).

(** The three results of [activateSeasonTx] that carry no detail. *)
Definition activation_ok : activation := mkActivation true None None.
Definition season_not_found : activation :=
  mkActivation false (Some "season_not_found") None.
Definition season_closed : activation :=
  mkActivation false (Some "season_closed") None.

(** The storage calls of an activation that commits. *)
Definition committed_calls (s : string) : list call :=
  [ CreateConnection; BeginTransaction; Execute (SelectBySlugForUpdate s);
    Execute SelectActiveForUpdate; Execute (DemoteActiveExcept s);
    Execute (PromoteBySlug s); Commit; End ].

(** The storage calls of an activation that stops at a guard. *)
Definition guarded_calls (s : string) : list call :=
  [ CreateConnection; BeginTransaction; Execute (SelectBySlugForUpdate s);
    Rollback; End ].

(** What a patch does to the columns of the row it matches: a name or an
    instant is written when the patch carries one; [null] and a missing
    property leave them alone.  The description is written for every value
    but [undefined], and [null] clears it. *)
Definition patched_name (v : jsval) (old : string) : string :=
  match v with
  | JString s => s
  | _ => old
  end.

Definition patched_description (v : jsval) (old : option string)
    : option string :=
  match v with
  | JString s => Some s
  | JNull => None
  | _ => old
  end.

Definition patched_instant (v : jsval) (old : Z) : Z :=
  match v with
  | JDate z => z
  | _ => old
  end.

(** The patches whose values the columns take: text for the name and the
    description, an instant for the two dates. *)
Definition well_typed (patch : Patch.t) : bool :=
  match Patch.name patch with JDate _ => false | _ => true end
  && match Patch.description patch with JDate _ => false | _ => true end
  && match Patch.startAt patch with JString _ => false | _ => true end
  && match Patch.endAt patch with JString _ => false | _ => true end.

(** The SET list and the values by the presence rules, field by field. *)
Definition when_present (present : jsval -> bool) (clause : string)
    (v : jsval) : list string * list jsval :=
  if present v then ([clause], [v]) else ([], []).

Definition sets_by_presence (patch : Patch.t) : list (list string * list jsval) :=
  [ when_present loose_neq_null "name = ?" (Patch.name patch);
    when_present strict_neq_undefined "description = ?" (Patch.description patch);
    when_present loose_neq_null "start_at = ?" (Patch.startAt patch);
    when_present loose_neq_null "end_at = ?" (Patch.endAt patch) ].

(** What one row looks like after a patch that named its slug. *)
Definition patched_row (patch : Patch.t) (r r' : season) : Prop :=
  slug r' = slug r
  /\ status r' = status r
  /\ name r' = patched_name (Patch.name patch) (name r)
  /\ description r'
     = patched_description (Patch.description patch) (description r)
  /\ start_at r' = patched_instant (Patch.startAt patch) (start_at r)
  /\ end_at r' = patched_instant (Patch.endAt patch) (end_at r).

(** [ORDER BY start_at DESC, id DESC] as a relation between a row and a row
    listed after it. *)
Definition listed_order (a b : season) : Prop :=
  (start_at b < start_at a)%Z
  \/ (start_at a = start_at b /\ (id b <= id a)%Z).

(** The columns an activation has no business with: every column but the
    status and the update timestamp. *)
Definition fixed_columns (r : season)
    : Z * string * string * option string * Z * Z * Z :=
  (id r, slug r, name r, description r, start_at r, end_at r, created_at r).

(** The columns a patch has no business with. *)
Definition key_columns (r : season) : Z * string * season_status * Z :=
  (id r, slug r, status r, created_at r).

(* ================================================================== *)
(** * Properties *)
(* ================================================================== *)

(** *** Running [activateSeasonTx] *)

Ltac unfold_repo :=
  unfold activateSeasonTx, listSeasons, getSeasonBySlug, getActiveSeason,
    withConn, createConnection, beginTransaction, execute, commit, rollback,
    conn_end, storage_call, try_finally, try_catch, bind, ret, logged,
    store, visible, set_faults, set_pending, set_seasons in *.

(** Takes the next entry of the fault schedule the goal looks at. *)
Ltac next_fault :=
  match goal with
  | |- context [hd None ?fs] =>
      is_var fs; destruct fs as [ | [ ? | ] ? ]; simpl in *;
      try discriminate
  end.

Ltac tidy_trace := repeat rewrite <- app_assoc; simpl.

Lemma calm_weaken (n m : nat) (fs : list (option js_error)) :
  (m <= n)%nat -> calm n fs = true -> calm m fs = true.
Proof.
  revert m fs; induction n as [ | n IH ]; intros m fs Hle H.
  - assert (m = 0%nat) by lia. subst. reflexivity.
  - destruct m as [ | m ]; [ reflexivity | ].
    destruct fs as [ | [ e | ] fs ]; simpl in *;
      [ reflexivity | discriminate | ].
    apply IH; [ lia | assumption ].
Qed.

(** An activation that stops at a guard makes four fallible storage calls. *)
Lemma activateSeasonTx_guarded (s : string) (w : world) :
  calm 4 (faults w) = true ->
  activatable s (seasons w) = false ->
  activateSeasonTx s w =
    (Normal (match hd_error (filter (slug_is s) (seasons w)) with
             | None => season_not_found
             | Some _ => season_closed
             end),
     mkWorld (seasons w) None (now w + 5) (skipn 4 (faults w))
             (trace w ++ guarded_calls s)).
Proof.
  destruct w as [t p n fs tr]; unfold activatable; simpl.
  intros Hcalm Hguard. unfold_repo; simpl.
  repeat next_fault;
    destruct (filter (slug_is s) t) as [ | target rows ]; simpl in *;
    try destruct (status_eqb (status target) closed); simpl in *;
    try discriminate;
    repeat next_fault; tidy_trace;
    repeat (f_equal; try lia).
Qed.

(** An activation that goes through makes seven fallible storage calls. *)
Lemma activateSeasonTx_committed (s : string) (w : world) :
  calm 7 (faults w) = true ->
  activatable s (seasons w) = true ->
  activateSeasonTx s w =
    (Normal activation_ok,
     mkWorld (activated s (now w) (seasons w)) None (now w + 8)
             (skipn 7 (faults w)) (trace w ++ committed_calls s)).
Proof.
  destruct w as [t p n fs tr]; unfold activatable; simpl.
  intros Hcalm Hgo. unfold_repo; simpl.
  repeat next_fault;
    destruct (filter (slug_is s) t) as [ | target rows ]; simpl in *;
    try destruct (status_eqb (status target) closed); simpl in *;
    try discriminate;
    repeat next_fault; tidy_trace;
    unfold activated, promote, demote;
    repeat (f_equal; try lia).
Qed.

(** Whatever the schedule, an activation either commits, after seven calm
    storage calls on an activatable target, or leaves the committed table as
    it was. *)
Lemma activateSeasonTx_outcomes (s : string) (w : world) :
  (fst (activateSeasonTx s w) = Normal activation_ok
   /\ calm 7 (faults w) = true
   /\ activatable s (seasons w) = true)
  \/ ((forall r, fst (activateSeasonTx s w) = Normal r -> ok r = false)
      /\ seasons (snd (activateSeasonTx s w)) = seasons w).
Proof.
  destruct w as [t p n fs tr]; unfold activatable; simpl.
  unfold_repo; simpl.
  repeat next_fault;
    destruct (filter (slug_is s) t) as [ | target rows ]; simpl in *;
    try destruct (status_eqb (status target) closed); simpl in *;
    repeat next_fault;
    first [ left; repeat split; reflexivity
          | right; split;
            [ intros r0 Hr; inversion Hr; reflexivity | reflexivity ] ].
Qed.

(** *** Rows and tables under the two UPDATEs *)

Lemma slug_is_true (s : string) (r : season) :
  slug_is s r = true <-> slug r = s.
Proof. unfold slug_is. apply String.eqb_eq. Qed.

Lemma slug_is_false (s : string) (r : season) :
  slug_is s r = false <-> slug r <> s.
Proof. unfold slug_is. apply String.eqb_neq. Qed.

Lemma is_active_true (r : season) : is_active r = true <-> status r = active.
Proof. unfold is_active. destruct (status r); simpl; split; congruence. Qed.

Lemma status_touch (c : Z) (old new : season) :
  status (touch c old new) = status new.
Proof. unfold touch. destruct (season_eq_dec old new); subst; reflexivity. Qed.

Lemma slug_touch (c : Z) (old new : season) :
  slug (touch c old new) = slug new.
Proof. unfold touch. destruct (season_eq_dec old new); subst; reflexivity. Qed.

Lemma touch_same (c : Z) (r : season) : touch c r r = r.
Proof. unfold touch. destruct (season_eq_dec r r); congruence. Qed.

Lemma set_status_same (r : season) : set_status (status r) r = r.
Proof. destruct r; reflexivity. Qed.

(** The row an activation of [s] makes of [r]. *)
Lemma activated_map (s : string) (c : Z) (t : table) :
  exists g : season -> season,
    activated s c t = map g t
    /\ (forall r, slug (g r) = slug r)
    /\ (forall r, status (g r) = activated_status s (slug r) (status r))
    /\ (forall r, activated_status s (slug r) (status r) = status r -> g r = r).
Proof.
  exists (fun r =>
    let r1 := if active_other_than s r
              then touch (c + 5) r (set_status draft r) else r in
    if slug_is s r1 then touch (c + 6) r1 (set_status active r1) else r1).
  split; [ | split; [ | split ] ].
  - unfold activated, promote, demote, update_where.
    rewrite map_map. reflexivity.
  - intros r. simpl.
    destruct (active_other_than s r);
      repeat match goal with
             | |- context [if ?b then _ else _] => destruct b
             end;
      repeat (rewrite ?slug_touch; simpl); reflexivity.
  - intros r. unfold activated_status, active_other_than, is_active. simpl.
    unfold slug_is at 1. fold (slug_is s r).
    destruct (slug_is s r) eqn:Hs, (status r) eqn:Hst; simpl;
      unfold slug_is in *; rewrite ?slug_touch; simpl; rewrite ?Hs;
      rewrite ?status_touch; simpl; try reflexivity; try assumption.
  - intros r. unfold activated_status, active_other_than, is_active. simpl.
    unfold slug_is at 1. fold (slug_is s r).
    destruct (slug_is s r) eqn:Hs, (status r) eqn:Hst; simpl;
      unfold slug_is in *; rewrite ?Hs; try discriminate; intros _;
      try reflexivity.
    rewrite <- Hst, set_status_same. apply touch_same.
Qed.

Lemma count_slug_absent (s : string) (t : table) :
  ~ In s (map slug t) -> filter (slug_is s) t = [].
Proof.
  induction t as [ | r t IH ]; simpl; intros Hn; [ reflexivity | ].
  destruct (slug_is s r) eqn:E.
  - apply slug_is_true in E. tauto.
  - apply IH. tauto.
Qed.

(** Under the key, a slug selects exactly its row. *)
Lemma filter_slug_unique (t : table) (r : season) :
  unique_slugs t -> In r t -> filter (slug_is (slug r)) t = [r].
Proof.
  unfold unique_slugs.
  induction t as [ | x t IH ]; simpl; intros Hu Hin; [ contradiction | ].
  inversion Hu as [ | ? ? Hx Hu' ]; subst.
  destruct Hin as [ -> | Hin ].
  - unfold slug_is at 1. rewrite String.eqb_refl.
    rewrite count_slug_absent by assumption. reflexivity.
  - destruct (slug_is (slug r) x) eqn:E.
    + apply slug_is_true in E. exfalso. apply Hx. rewrite E.
      apply in_map. assumption.
    + apply IH; assumption.
Qed.

Lemma count_slug_le_1 (s : string) (t : table) :
  unique_slugs t -> (count_where (slug_is s) t <= 1)%nat.
Proof.
  unfold unique_slugs, count_where.
  induction t as [ | x t IH ]; simpl; intros Hu; [ lia | ].
  inversion Hu as [ | ? ? Hx Hu' ]; subst.
  destruct (slug_is s x) eqn:E.
  - apply slug_is_true in E. subst s.
    rewrite count_slug_absent by assumption. simpl. lia.
  - apply IH. assumption.
Qed.

Lemma find_slug_filter (s : string) (t : table) :
  find (slug_is s) t = hd_error (filter (slug_is s) t).
Proof.
  induction t as [ | x t IH ]; simpl; [ reflexivity | ].
  destruct (slug_is s x); [ reflexivity | assumption ].
Qed.

Lemma status_of_In (t : table) (r : season) :
  unique_slugs t -> In r t -> status_of (slug r) t = Some (status r).
Proof.
  intros Hu Hin. unfold status_of.
  rewrite find_slug_filter, (filter_slug_unique t r Hu Hin). reflexivity.
Qed.

Lemma find_slug_map (s : string) (g : season -> season) (t : table) :
  (forall r, slug (g r) = slug r) ->
  find (slug_is s) (map g t) = option_map g (find (slug_is s) t).
Proof.
  intros Hg. induction t as [ | x t IH ]; simpl; [ reflexivity | ].
  unfold slug_is at 1. rewrite Hg. fold (slug_is s x).
  destruct (slug_is s x); [ reflexivity | assumption ].
Qed.

(** The status of every season after an activation of [s]. *)
Lemma status_of_activated (s s' : string) (c : Z) (t : table) :
  status_of s' (activated s c t)
  = option_map (activated_status s s') (status_of s' t).
Proof.
  destruct (activated_map s c t) as (g & -> & Hslug & Hstatus & _).
  unfold status_of. rewrite find_slug_map by assumption.
  destruct (find (slug_is s') t) as [ r | ] eqn:F; simpl; [ | reflexivity ].
  apply find_some in F. destruct F as [_ F]. apply slug_is_true in F.
  rewrite Hstatus, F. reflexivity.
Qed.

Lemma slugs_activated (s : string) (c : Z) (t : table) :
  map slug (activated s c t) = map slug t.
Proof.
  destruct (activated_map s c t) as (g & -> & Hslug & _).
  rewrite map_map. apply map_ext. assumption.
Qed.

(** After an activation of [s] the active rows are the rows named [s]. *)
Lemma count_active_activated (s : string) (c : Z) (t : table) :
  count_where is_active (activated s c t) = count_where (slug_is s) t.
Proof.
  destruct (activated_map s c t) as (g & -> & Hslug & Hstatus & _).
  unfold count_where.
  induction t as [ | x t IH ]; simpl; [ reflexivity | ].
  assert (E : is_active (g x) = slug_is s x).
  { unfold is_active. rewrite Hstatus. unfold activated_status, slug_is.
    destruct (String.eqb (slug x) s); [ reflexivity | ].
    destruct (status x); reflexivity. }
  rewrite E. destruct (slug_is s x); simpl; rewrite IH; reflexivity.
Qed.

Lemma activated_keeps_invariant (s : string) (c : Z) (t : table) :
  unique_slugs t ->
  unique_slugs (activated s c t) /\ at_most_one_active (activated s c t).
Proof.
  intros Hu. split.
  - unfold unique_slugs. rewrite slugs_activated. assumption.
  - unfold at_most_one_active. rewrite count_active_activated.
    apply count_slug_le_1. assumption.
Qed.

(** Under the single-active invariant two active rows are one row. *)
Lemma active_rows_equal (t : table) (a b : season) :
  at_most_one_active t ->
  In a t -> In b t -> status a = active -> status b = active -> a = b.
Proof.
  unfold at_most_one_active, count_where. intros Hone Ha Hb Sa Sb.
  assert (Fa : In a (filter is_active t))
    by (apply filter_In; split; [ assumption | apply is_active_true; assumption ]).
  assert (Fb : In b (filter is_active t))
    by (apply filter_In; split; [ assumption | apply is_active_true; assumption ]).
  destruct (filter is_active t) as [ | x [ | y l ] ]; simpl in *;
    [ contradiction | | lia ].
  destruct Fa as [ <- | [] ]. destruct Fb as [ <- | [] ]. reflexivity.
Qed.

(** Re-activating the active season changes no row. *)
Lemma activated_active_target (t : table) (r : season) (c : Z) :
  unique_slugs t -> at_most_one_active t ->
  In r t -> status r = active ->
  activated (slug r) c t = t.
Proof.
  intros Hu Hone Hin Hact.
  destruct (activated_map (slug r) c t) as (g & -> & _ & _ & Hfix).
  rewrite <- (map_id t) at 2. apply map_ext_in. intros x Hx.
  apply Hfix. unfold activated_status.
  destruct (String.eqb (slug x) (slug r)) eqn:E.
  - apply String.eqb_eq in E.
    assert (Fx : filter (slug_is (slug x)) t = [x])
      by (apply filter_slug_unique; assumption).
    assert (Fr : filter (slug_is (slug r)) t = [r])
      by (apply filter_slug_unique; assumption).
    rewrite E in Fx. rewrite Fx in Fr. injection Fr as ->. symmetry; assumption.
  - destruct (status x) eqn:Sx; try reflexivity.
    assert (x = r) by (apply (active_rows_equal t); assumption).
    subst x. rewrite String.eqb_refl in E. discriminate.
Qed.

Lemma Forall2_map_row (R : season -> season -> Prop) (g : season -> season)
    (t : table) :
  (forall r, R r (g r)) -> Forall2 R t (map g t).
Proof.
  intros Hg. induction t as [ | x t IH ]; simpl; constructor; auto.
Qed.

Lemma activatable_target (t : table) (r : season) :
  unique_slugs t -> In r t ->
  activatable (slug r) t = negb (status_eqb (status r) closed).
Proof.
  intros Hu Hin. unfold activatable.
  rewrite (filter_slug_unique t r Hu Hin). reflexivity.
Qed.

Lemma distinct_rows_distinct_slugs (t : table) (a b : season) :
  unique_slugs t -> In a t -> In b t -> a <> b -> slug a <> slug b.
Proof.
  intros Hu Ha Hb Hab E.
  pose proof (filter_slug_unique t a Hu Ha) as Fa.
  pose proof (filter_slug_unique t b Hu Hb) as Fb.
  rewrite E, Fb in Fa. injection Fa as ->. apply Hab. reflexivity.
Qed.

(** One more call after a prefix of calls. *)
Lemma activate_each_snoc (slugs : list string) (s : string) (w : world) :
  snd (activate_each (slugs ++ [s]) w)
  = snd (activateSeasonTx s (snd (activate_each slugs w))).
Proof.
  revert w. induction slugs as [ | x slugs IH ]; intros w; simpl.
  - destruct (activateSeasonTx s w). reflexivity.
  - destruct (activateSeasonTx x w) as [r w1]. specialize (IH w1).
    destruct (activate_each (slugs ++ [s]) w1).
    destruct (activate_each slugs w1). simpl in *. assumption.
Qed.

(** One call keeps the key and the single-active invariant, whatever the
    fault schedule does to it. *)
Lemma activateSeasonTx_keeps_invariant (s : string) (w : world) :
  unique_slugs (seasons w) -> at_most_one_active (seasons w) ->
  unique_slugs (seasons (snd (activateSeasonTx s w)))
  /\ at_most_one_active (seasons (snd (activateSeasonTx s w))).
Proof.
  intros Hu Hone.
  destruct (activateSeasonTx_outcomes s w) as [ (_ & Hcalm & Hgo) | (_ & ->) ].
  - rewrite (activateSeasonTx_committed s w Hcalm Hgo). simpl.
    apply activated_keeps_invariant. assumption.
  - split; assumption.
Qed.

Lemma activate_each_keeps_invariant (slugs : list string) (w : world) :
  unique_slugs (seasons w) -> at_most_one_active (seasons w) ->
  unique_slugs (seasons (snd (activate_each slugs w)))
  /\ at_most_one_active (seasons (snd (activate_each slugs w))).
Proof.
  revert w. induction slugs as [ | s slugs IH ]; intros w Hu Hone; simpl.
  - split; assumption.
  - destruct (activateSeasonTx_keeps_invariant s w Hu Hone) as [Hu1 Hone1].
    destruct (activateSeasonTx s w) as [r w1]. simpl in *.
    specialize (IH w1 Hu1 Hone1).
    destruct (activate_each slugs w1). simpl in *. assumption.
Qed.

(* ================================================================== *)
(** * The activation procedure *)
(* ================================================================== *)

(** C1 (single-active invariant).  On a table that has unique slugs and at
    most one active row, after each call of any sequence of
    [activateSeasonTx] calls, run one after the other and whatever storage
    faults hit them, at most one season is active.  What one call does to
    the committed table is fixed by the state it starts from: when its seven
    storage calls succeed and the target exists and is not closed, it
    resolves to [{ok: true}], makes the calls of a committed activation in
    order and commits the promote step run on the table of the demote step;
    in every other case it does not resolve to an ok result and leaves the
    committed table as it was.  The demote step turns exactly the active
    rows other than the target into drafts, so that only the target can
    still be active when the promote step makes it active. *)
Theorem C1_single_active_invariant (slugs : list string) (w : world) :
  unique_slugs (seasons w) ->
  at_most_one_active (seasons w) ->
  (forall n : nat,
     at_most_one_active (seasons (snd (activate_each (firstn n slugs) w))))
  /\ (forall (s : string) (w0 : world),
        calm 7 (faults w0) = true ->
        activatable s (seasons w0) = true ->
        fst (activateSeasonTx s w0) = Normal activation_ok
        /\ seasons (snd (activateSeasonTx s w0))
           = promote s (now w0 + 6) (demote s (now w0 + 5) (seasons w0))
        /\ trace (snd (activateSeasonTx s w0))
           = (trace w0 ++ committed_calls s)%list)
  /\ (forall (s : string) (w0 : world),
        calm 7 (faults w0) = false \/ activatable s (seasons w0) = false ->
        (forall res, fst (activateSeasonTx s w0) = Normal res ->
                     ok res = false)
        /\ seasons (snd (activateSeasonTx s w0)) = seasons w0)
  /\ (forall (s : string) (c : Z) (t : table),
        Forall2 (fun r r' =>
                   slug r' = slug r
                   /\ status r' = if active_other_than s r then draft
                                  else status r)
                t (demote s c t)
        /\ (forall r', In r' (demote s c t) ->
                       status r' = active -> slug r' = s)
        /\ Forall2 (fun r r' =>
                      slug r' = slug r
                      /\ status r' = if slug_is s r then active
                                     else status r)
                   t (promote s c t)).
Proof.
  intros Hu Hone. split; [ | split; [ | split ] ].
  - intros n. apply activate_each_keeps_invariant; assumption.
  - intros s w0 Hcalm Hgo.
    rewrite (activateSeasonTx_committed s w0 Hcalm Hgo). simpl.
    repeat split; reflexivity.
  - intros s w0 Hnot.
    destruct (activateSeasonTx_outcomes s w0)
      as [ (_ & Hcalm & Hgo) | Hkept ].
    + destruct Hnot; congruence.
    + exact Hkept.
  - intros s c t.
    assert (D : Forall2 (fun r r' =>
                   slug r' = slug r
                   /\ status r' = if active_other_than s r then draft
                                  else status r)
                t (demote s c t)).
    { unfold demote, update_where. apply Forall2_map_row. intros r.
      destruct (active_other_than s r);
        rewrite ?slug_touch, ?status_touch; split; reflexivity. }
    split; [ exact D | split ].
    + intros r' Hin Hact.
      clear Hu Hone. induction D as [ | x x' l l' [Hs Hst] _ IH ];
        simpl in Hin; [ contradiction | ].
      destruct Hin as [ -> | Hin ]; [ | apply IH; assumption ].
      unfold active_other_than in Hst.
      destruct (is_active x) eqn:Ea, (slug_is s x) eqn:Es; simpl in Hst;
        try congruence.
      * apply slug_is_true in Es. congruence.
      * apply slug_is_true in Es. congruence.
      * assert (is_active x = true) by (apply is_active_true; congruence).
        congruence.
    + unfold promote, update_where. apply Forall2_map_row. intros r.
      destruct (slug_is s r);
        rewrite ?slug_touch, ?status_touch; split; reflexivity.
Qed.

Lemma example_table_unique : unique_slugs example_table.
Proof.
  unfold unique_slugs, example_table; simpl.
  repeat constructor; simpl; intuition discriminate.
Defined.

Lemma example_table_one_active : at_most_one_active example_table.
Proof. unfold at_most_one_active. vm_compute. lia. Defined.

Lemma C1_single_active_invariant_witness :
  at_most_one_active
    (seasons (snd (activate_each ["b"; "c"; "nowhere"; "a"; "b"]
                                 (quiet example_table)))).
Proof.
  exact (proj1 (C1_single_active_invariant
                  ["b"; "c"; "nowhere"; "a"; "b"] (quiet example_table)
                  example_table_unique example_table_one_active) 5%nat).
Defined.

(** C2 (demotion without auto-close).  With A active and B another season
    that is not closed, [activateSeasonTx (slug B)] resolves to [{ok: true}],
    leaves A a draft and B active; no season is closed afterwards that was
    not closed before, and the demote step closes no row: a closed row of
    its result is a row of its input. *)
Theorem C2_demotion_without_auto_close (w : world) (A B : season) :
  calm 7 (faults w) = true ->
  unique_slugs (seasons w) ->
  In A (seasons w) -> In B (seasons w) -> A <> B ->
  status A = active -> status B <> closed ->
  fst (activateSeasonTx (slug B) w) = Normal activation_ok
  /\ status_of (slug A) (seasons (snd (activateSeasonTx (slug B) w)))
     = Some draft
  /\ status_of (slug B) (seasons (snd (activateSeasonTx (slug B) w)))
     = Some active
  /\ (forall s,
        status_of s (seasons (snd (activateSeasonTx (slug B) w))) = Some closed ->
        status_of s (seasons w) = Some closed)
  /\ (forall s c t r,
        In r (demote s c t) -> status r = closed -> In r t).
Proof.
  intros Hcalm Hu HA HB Hneq HactA HopenB.
  assert (Hgo : activatable (slug B) (seasons w) = true).
  { rewrite activatable_target by assumption.
    destruct (status B); simpl; congruence. }
  rewrite (activateSeasonTx_committed _ w Hcalm Hgo). simpl.
  split; [ reflexivity | ].
  split; [ | split; [ | split ] ].
  - rewrite status_of_activated, (status_of_In _ _ Hu HA). simpl.
    unfold activated_status.
    pose proof (distinct_rows_distinct_slugs _ _ _ Hu HA HB Hneq) as Hs.
    apply String.eqb_neq in Hs. rewrite Hs, HactA. reflexivity.
  - rewrite status_of_activated, (status_of_In _ _ Hu HB). simpl.
    unfold activated_status. rewrite String.eqb_refl. reflexivity.
  - intros s. rewrite status_of_activated.
    destruct (status_of s (seasons w)) as [ st | ]; simpl; [ | discriminate ].
    unfold activated_status.
    destruct (String.eqb s (slug B)); [ discriminate | ].
    destruct st; intros H; try discriminate. reflexivity.
  - intros s c t r Hin Hclosed. unfold demote, update_where in Hin.
    apply in_map_iff in Hin. destruct Hin as (x & Hx & Hin).
    destruct (active_other_than s x).
    + rewrite <- Hx, status_touch in Hclosed. discriminate.
    + subst x. assumption.
Qed.

Lemma C2_demotion_without_auto_close_witness :
  fst (activateSeasonTx "b" (quiet example_table)) = Normal activation_ok
  /\ status_of "a" (seasons (snd (activateSeasonTx "b" (quiet example_table))))
     = Some draft
  /\ status_of "b" (seasons (snd (activateSeasonTx "b" (quiet example_table))))
     = Some active.
Proof.
  destruct (C2_demotion_without_auto_close
              (quiet example_table) (row 1 "a" 10 active) (row 2 "b" 20 draft))
    as (H1 & H2 & H3 & _).
  - reflexivity.
  - exact example_table_unique.
  - simpl; auto.
  - simpl; auto.
  - discriminate.
  - reflexivity.
  - discriminate.
  - exact (conj H1 (conj H2 H3)).
Defined.

(** C3 (terminal-state guard).  For a season that is closed,
    [activateSeasonTx] on its slug rolls the transaction back (the storage
    calls are connect, begin, the locking read, rollback, end), resolves to
    [{ok: false, error: "season_closed"}] and leaves the whole table, hence
    every status, as it was. *)
Theorem C3_closed_season_is_refused (w : world) (r : season) :
  calm 4 (faults w) = true ->
  unique_slugs (seasons w) ->
  In r (seasons w) -> status r = closed ->
  fst (activateSeasonTx (slug r) w) = Normal season_closed
  /\ seasons (snd (activateSeasonTx (slug r) w)) = seasons w
  /\ pending (snd (activateSeasonTx (slug r) w)) = None
  /\ trace (snd (activateSeasonTx (slug r) w))
     = (trace w ++ guarded_calls (slug r))%list
  /\ (forall s, status_of s (seasons (snd (activateSeasonTx (slug r) w)))
                = status_of s (seasons w)).
Proof.
  intros Hcalm Hu Hin Hclosed.
  assert (Hguard : activatable (slug r) (seasons w) = false).
  { rewrite activatable_target by assumption. rewrite Hclosed. reflexivity. }
  rewrite (activateSeasonTx_guarded _ w Hcalm Hguard). simpl.
  rewrite (filter_slug_unique _ _ Hu Hin). simpl.
  repeat split; reflexivity.
Qed.

Lemma C3_closed_season_is_refused_witness :
  fst (activateSeasonTx "c" (quiet example_table)) = Normal season_closed
  /\ seasons (snd (activateSeasonTx "c" (quiet example_table))) = example_table.
Proof.
  destruct (C3_closed_season_is_refused
              (quiet example_table) (row 3 "c" 30 closed))
    as (H1 & H2 & _).
  - reflexivity.
  - exact example_table_unique.
  - simpl; auto.
  - reflexivity.
  - exact (conj H1 H2).
Defined.

(** C4 (not-found guard).  For a slug that names no row, [activateSeasonTx]
    rolls the transaction back, resolves to
    [{ok: false, error: "season_not_found"}] and changes no row: the table
    is as it was and no UPDATE is among the storage calls. *)
Theorem C4_unknown_slug_is_not_found (w : world) (s : string) :
  calm 4 (faults w) = true ->
  ~ In s (map slug (seasons w)) ->
  fst (activateSeasonTx s w) = Normal season_not_found
  /\ seasons (snd (activateSeasonTx s w)) = seasons w
  /\ pending (snd (activateSeasonTx s w)) = None
  /\ trace (snd (activateSeasonTx s w)) = (trace w ++ guarded_calls s)%list.
Proof.
  intros Hcalm Habsent.
  pose proof (count_slug_absent s (seasons w) Habsent) as Hnone.
  assert (Hguard : activatable s (seasons w) = false)
    by (unfold activatable; rewrite Hnone; reflexivity).
  rewrite (activateSeasonTx_guarded s w Hcalm Hguard). simpl.
  rewrite Hnone. simpl. repeat split; reflexivity.
Qed.

Lemma C4_unknown_slug_is_not_found_witness :
  fst (activateSeasonTx "nowhere" (quiet example_table))
  = Normal season_not_found
  /\ seasons (snd (activateSeasonTx "nowhere" (quiet example_table)))
     = example_table.
Proof.
  destruct (C4_unknown_slug_is_not_found (quiet example_table) "nowhere")
    as (H1 & H2 & _).
  - reflexivity.
  - simpl. intuition discriminate.
  - exact (conj H1 H2).
Defined.

(** C5 (idempotent re-activation).  For a season that is active, on a table
    with unique slugs that satisfies the single-active invariant,
    [activateSeasonTx] on its slug resolves to [{ok: true}]; afterwards the
    active rows are exactly the target, and the table, hence every status,
    is what it was before the call. *)
Theorem C5_reactivation_is_idempotent (w : world) (r : season) :
  calm 7 (faults w) = true ->
  unique_slugs (seasons w) ->
  at_most_one_active (seasons w) ->
  In r (seasons w) -> status r = active ->
  fst (activateSeasonTx (slug r) w) = Normal activation_ok
  /\ filter is_active (seasons (snd (activateSeasonTx (slug r) w))) = [r]
  /\ seasons (snd (activateSeasonTx (slug r) w)) = seasons w
  /\ (forall s, status_of s (seasons (snd (activateSeasonTx (slug r) w)))
                = status_of s (seasons w)).
Proof.
  intros Hcalm Hu Hone Hin Hact.
  assert (Hgo : activatable (slug r) (seasons w) = true).
  { rewrite activatable_target by assumption. rewrite Hact. reflexivity. }
  rewrite (activateSeasonTx_committed _ w Hcalm Hgo). simpl.
  rewrite (activated_active_target _ _ _ Hu Hone Hin Hact).
  split; [ reflexivity | split; [ | split; [ reflexivity | reflexivity ] ] ].
  assert (F : In r (filter is_active (seasons w)))
    by (apply filter_In; split; [ assumption | apply is_active_true; assumption ]).
  unfold at_most_one_active, count_where in Hone.
  destruct (filter is_active (seasons w)) as [ | x [ | y l ] ]; simpl in *;
    [ contradiction | | lia ].
  destruct F as [ -> | [] ]. reflexivity.
Qed.

Lemma C5_reactivation_is_idempotent_witness :
  fst (activateSeasonTx "a" (quiet example_table)) = Normal activation_ok
  /\ filter is_active (seasons (snd (activateSeasonTx "a" (quiet example_table))))
     = [row 1 "a" 10 active]
  /\ seasons (snd (activateSeasonTx "a" (quiet example_table))) = example_table.
Proof.
  destruct (C5_reactivation_is_idempotent
              (quiet example_table) (row 1 "a" 10 active))
    as (H1 & H2 & H3 & _).
  - reflexivity.
  - exact example_table_unique.
  - exact example_table_one_active.
  - simpl; auto.
  - reflexivity.
  - exact (conj H1 (conj H2 H3)).
Defined.

(** A fault between [beginTransaction] and the promote UPDATE. *)
Lemma activateSeasonTx_fault (s : string) (w : world) (k : nat)
    (e : js_error) (rest : list (option js_error)) :
  (1 <= k <= 5)%nat ->
  faults w = fault_at k e rest ->
  (k <= 3)%nat \/ activatable s (seasons w) = true ->
  fst (activateSeasonTx s w) = Normal (tx_failed e)
  /\ seasons (snd (activateSeasonTx s w)) = seasons w
  /\ pending (snd (activateSeasonTx s w)) = None
  /\ trace (snd (activateSeasonTx s w))
     = (trace w
        ++ firstn (S k) (if activatable s (seasons w) then committed_calls s
                         else guarded_calls s)
        ++ [Rollback; End])%list.
Proof.
  intros Hk Hfaults Hreached.
  destruct w as [t p n fs tr]. simpl in Hfaults, Hreached |- *. subst fs.
  unfold activatable in *.
  destruct k as [ | [ | [ | [ | [ | [ | k ] ] ] ] ] ]; try lia; clear Hk;
    unfold fault_at; cbn [repeat app];
    cbv [activateSeasonTx createConnection beginTransaction execute commit
         rollback conn_end storage_call try_finally try_catch bind ret logged
         store visible set_faults set_pending set_seasons
         seasons pending now faults trace hd tl fst snd
         run_statement rows_of];
    destruct (filter (slug_is s) t) as [ | target rows ];
    cbv [hd_error firstn committed_calls guarded_calls negb] in *;
    try destruct (status_eqb (status target) closed);
    try (destruct Hreached as [ Hreached | Hreached ];
         [ lia | discriminate ]);
    clear Hreached;
    destruct rest as [ | [ e' | ] rest ]; simpl; tidy_trace;
    repeat split; reflexivity.
Qed.

(** A call that resolves to [ok: true] has committed. *)
Lemma activateSeasonTx_ok_committed (s : string) (w : world) (r : activation) :
  fst (activateSeasonTx s w) = Normal r -> ok r = true ->
  r = activation_ok
  /\ seasons (snd (activateSeasonTx s w)) = activated s (now w) (seasons w)
  /\ trace (snd (activateSeasonTx s w)) = (trace w ++ committed_calls s)%list.
Proof.
  intros Hr Hok.
  destruct (activateSeasonTx_outcomes s w)
    as [ (Hfst & Hcalm & Hgo) | (Hno & _) ].
  - rewrite (activateSeasonTx_committed s w Hcalm Hgo) in *. simpl in *.
    split; [ congruence | split; reflexivity ].
  - rewrite (Hno r Hr) in Hok. discriminate.
Qed.

(** C6 (transactional failure).  When one of the storage calls from
    [beginTransaction] to the promote UPDATE rejects with [e] (call number
    [k], 1 to 5, of a call that gets that far; in a call that stops at a
    guard the fourth call is the guard's rollback), [activateSeasonTx] asks
    for a rollback, closes the connection and resolves to
    [{ok: false, error: "tx_failed", detail}]; the committed table is as it
    was before the call, nothing is left pending, and [detail] is the message
    of [e] whenever [e] has one.  And no call resolves to an object with
    [ok: true] unless its transaction was committed: such a call made the
    eight storage calls of a committed activation, with [Commit] before
    [End], and the table is the one the transaction built. *)
Theorem C6_failure_rolls_back (s : string) (w : world) (k : nat)
    (e : js_error) (rest : list (option js_error)) :
  (1 <= k <= 5)%nat ->
  faults w = fault_at k e rest ->
  (k <= 3)%nat \/ activatable s (seasons w) = true ->
  fst (activateSeasonTx s w) = Normal (tx_failed e)
  /\ seasons (snd (activateSeasonTx s w)) = seasons w
  /\ pending (snd (activateSeasonTx s w)) = None
  /\ trace (snd (activateSeasonTx s w))
     = (trace w
        ++ firstn (S k) (if activatable s (seasons w) then committed_calls s
                         else guarded_calls s)
        ++ [Rollback; End])%list
  /\ (err_message e <> "" -> detail (tx_failed e) = Some (err_message e))
  /\ (forall (s0 : string) (w0 : world) (r : activation),
        fst (activateSeasonTx s0 w0) = Normal r -> ok r = true ->
        r = activation_ok
        /\ seasons (snd (activateSeasonTx s0 w0))
           = activated s0 (now w0) (seasons w0)
        /\ trace (snd (activateSeasonTx s0 w0))
           = (trace w0 ++ committed_calls s0)%list).
Proof.
  intros Hk Hfaults Hreached.
  destruct (activateSeasonTx_fault s w k e rest Hk Hfaults Hreached)
    as (H1 & H2 & H3 & H4).
  repeat (split; [ assumption | ]). split.
  - intros Hmsg. simpl. unfold message_or_string.
    apply String.eqb_neq in Hmsg. rewrite Hmsg. reflexivity.
  - intros s0 w0 r. apply activateSeasonTx_ok_committed.
Qed.

Lemma C6_failure_rolls_back_witness :
  fst (activateSeasonTx "b"
         (mkWorld example_table None 0
                  (fault_at 4 (mkError "Error" "Lock wait timeout exceeded") [])
                  []))
  = Normal (mkActivation false (Some "tx_failed")
                         (Some "Lock wait timeout exceeded"))
  /\ seasons (snd (activateSeasonTx "b"
         (mkWorld example_table None 0
                  (fault_at 4 (mkError "Error" "Lock wait timeout exceeded") [])
                  [])))
     = example_table.
Proof.
  destruct (C6_failure_rolls_back "b"
              (mkWorld example_table None 0
                 (fault_at 4 (mkError "Error" "Lock wait timeout exceeded") [])
                 [])
              4 (mkError "Error" "Lock wait timeout exceeded") [])
    as (H1 & H2 & _).
  - lia.
  - reflexivity.
  - right. reflexivity.
  - exact (conj H1 H2).
Defined.

(* ================================================================== *)
(** * Patching and reading *)
(* ================================================================== *)

Lemma patch_sets_by_presence (patch : Patch.t) :
  patch_sets patch
  = (List.concat (map fst (sets_by_presence patch)),
     List.concat (map snd (sets_by_presence patch))).
Proof.
  unfold patch_sets, sets_by_presence, when_present, push.
  destruct (loose_neq_null (Patch.name patch)),
           (strict_neq_undefined (Patch.description patch)),
           (loose_neq_null (Patch.startAt patch)),
           (loose_neq_null (Patch.endAt patch)); reflexivity.
Qed.

Lemma name_touch (c : Z) (old new : season) :
  name (touch c old new) = name new.
Proof. unfold touch. destruct (season_eq_dec old new); subst; reflexivity. Qed.

Lemma description_touch (c : Z) (old new : season) :
  description (touch c old new) = description new.
Proof. unfold touch. destruct (season_eq_dec old new); subst; reflexivity. Qed.

Lemma start_at_touch (c : Z) (old new : season) :
  start_at (touch c old new) = start_at new.
Proof. unfold touch. destruct (season_eq_dec old new); subst; reflexivity. Qed.

Lemma end_at_touch (c : Z) (old new : season) :
  end_at (touch c old new) = end_at new.
Proof. unfold touch. destruct (season_eq_dec old new); subst; reflexivity. Qed.
Lemma loose_neq_null_true (v : jsval) :
  loose_neq_null v = true <-> v <> JNull /\ v <> JUndefined.
Proof. destruct v; simpl; split; intros H; try discriminate; intuition congruence. Qed.

Lemma strict_neq_undefined_true (v : jsval) :
  strict_neq_undefined v = true <-> v <> JUndefined.
Proof. destruct v; simpl; split; intros H; try discriminate; intuition congruence. Qed.

Lemma in_when_present (present : jsval -> bool) (clause c : string) (v : jsval) :
  In c (fst (when_present present clause v)) <-> present v = true /\ clause = c.
Proof.
  unfold when_present. destruct (present v); simpl; intuition discriminate.
Qed.

(** The clauses of the SET list, each with its presence check. *)
Lemma in_patch_sets (c : string) (patch : Patch.t) :
  In c (fst (patch_sets patch))
  <-> (loose_neq_null (Patch.name patch) = true /\ "name = ?" = c)
      \/ (strict_neq_undefined (Patch.description patch) = true
          /\ "description = ?" = c)
      \/ (loose_neq_null (Patch.startAt patch) = true /\ "start_at = ?" = c)
      \/ (loose_neq_null (Patch.endAt patch) = true /\ "end_at = ?" = c).
Proof.
  rewrite patch_sets_by_presence. unfold sets_by_presence.
  cbn [fst map List.concat]. rewrite !in_app_iff, !in_when_present.
  simpl. tauto.
Qed.

Lemma bind_patch_sets (patch : Patch.t) (rest : list jsval) :
  well_typed patch = true ->
  exists f : season -> season,
    bind_sets (fst (patch_sets patch)) (snd (patch_sets patch) ++ rest)
    = Some (f, rest)
    /\ forall r, patched_row patch r (f r).
Proof.
  intros Htyped. destruct patch as [pn pd ps pe].
  destruct pn, pd, ps, pe; try discriminate Htyped; clear Htyped;
    (eexists; split; [ reflexivity | ]);
    intros r; unfold patched_row; simpl; repeat split; reflexivity.
Qed.

Lemma patched_row_touch (patch : Patch.t) (c : Z) (r r' : season) :
  patched_row patch r r' -> patched_row patch r (touch c r r').
Proof.
  unfold patched_row.
  rewrite slug_touch, status_touch, name_touch, description_touch,
    start_at_touch, end_at_touch. tauto.
Qed.

(** A well-typed patch with a field to write, run without storage fault. *)
Lemma patchSeasonBySlug_applies (slug : string) (patch : Patch.t) (w : world) :
  well_typed patch = true ->
  calm 2 (faults w) = true ->
  fst (patch_sets patch) <> [] ->
  fst (patchSeasonBySlug slug patch w)
  = Normal (count_where (slug_is slug) (seasons w))
  /\ trace (snd (patchSeasonBySlug slug patch w))
     = (trace w
        ++ [ CreateConnection;
             Execute (UpdateSet (fst (patch_sets patch))
                                (snd (patch_sets patch) ++ [JString slug]));
             End ])%list
  /\ Forall2 (fun r r' => if slug_is slug r then patched_row patch r r'
                          else r' = r)
             (seasons w) (seasons (snd (patchSeasonBySlug slug patch w))).
Proof.
  intros Htyped Hcalm Hsome.
  destruct (bind_patch_sets patch [JString slug] Htyped) as (f & Hbind & Hf).
  unfold patchSeasonBySlug.
  destruct (patch_sets patch) as [sets vals]. cbn [fst snd] in *.
  destruct sets as [ | c sets ]; [ congruence | ].
  cbn [List.length Nat.eqb]. unfold push.
  destruct w as [t p n fs tr]. cbn [faults] in Hcalm.
  cbv [withConn createConnection execute conn_end storage_call try_finally
       bind ret logged store visible set_faults set_pending set_seasons
       seasons pending now faults trace run_statement affectedRows_of].
  destruct fs as [ | [ e0 | ] [ | [ e1 | ] fs ] ]; try discriminate Hcalm;
    cbn [hd tl]; rewrite Hbind; cbn [fst snd]; tidy_trace;
    (split; [ reflexivity | split; [ reflexivity | ] ]);
    unfold update_where; apply Forall2_map_row; intros r;
    (destruct (slug_is slug r); [ | reflexivity ]);
    apply patched_row_touch, Hf.
Qed.

(** C7 (presence rules of a patch).  [patchSeasonBySlug] puts [name = ?],
    [start_at = ?] and [end_at = ?] into the UPDATE exactly when the field is
    neither [null] nor [undefined], and [description = ?] exactly when the
    field is not [undefined]; the values are bound in that order, followed by
    the slug.  Run on a well-typed patch with a field to write, the UPDATE
    gives each row of that slug the patch's name and dates when they are
    present and leaves them alone on [null], whereas a [null] description
    clears the stored description; rows of other slugs stay as they are. *)
Theorem C7_patch_presence_rules (patch : Patch.t) :
  (In "name = ?" (fst (patch_sets patch))
   <-> Patch.name patch <> JNull /\ Patch.name patch <> JUndefined)
  /\ (In "description = ?" (fst (patch_sets patch))
      <-> Patch.description patch <> JUndefined)
  /\ (In "start_at = ?" (fst (patch_sets patch))
      <-> Patch.startAt patch <> JNull /\ Patch.startAt patch <> JUndefined)
  /\ (In "end_at = ?" (fst (patch_sets patch))
      <-> Patch.endAt patch <> JNull /\ Patch.endAt patch <> JUndefined)
  /\ patch_sets patch
     = (List.concat (map fst (sets_by_presence patch)),
        List.concat (map snd (sets_by_presence patch)))
  /\ (forall (slug : string) (w : world),
        well_typed patch = true ->
        calm 2 (faults w) = true ->
        fst (patch_sets patch) <> [] ->
        fst (patchSeasonBySlug slug patch w)
        = Normal (count_where (slug_is slug) (seasons w))
        /\ trace (snd (patchSeasonBySlug slug patch w))
           = (trace w
              ++ [ CreateConnection;
                   Execute (UpdateSet (fst (patch_sets patch))
                              (snd (patch_sets patch) ++ [JString slug]));
                   End ])%list
        /\ Forall2 (fun r r' => if slug_is slug r then patched_row patch r r'
                                else r' = r)
                   (seasons w)
                   (seasons (snd (patchSeasonBySlug slug patch w)))).
Proof.
  split; [ | split; [ | split; [ | split; [ | split ] ] ] ].
  - rewrite in_patch_sets, <- loose_neq_null_true. split.
    + intros [ [H _] | [ [_ E] | [ [_ E] | [_ E] ] ] ];
        [ assumption | discriminate E .. ].
    + intros H. left. split; [ assumption | reflexivity ].
  - rewrite in_patch_sets, <- strict_neq_undefined_true. split.
    + intros [ [_ E] | [ [H _] | [ [_ E] | [_ E] ] ] ];
        [ discriminate E | assumption | discriminate E .. ].
    + intros H. right. left. split; [ assumption | reflexivity ].
  - rewrite in_patch_sets, <- loose_neq_null_true. split.
    + intros [ [_ E] | [ [_ E] | [ [H _] | [_ E] ] ] ];
        [ discriminate E | discriminate E | assumption | discriminate E ].
    + intros H. right. right. left. split; [ assumption | reflexivity ].
  - rewrite in_patch_sets, <- loose_neq_null_true. split.
    + intros [ [_ E] | [ [_ E] | [ [_ E] | [H _] ] ] ];
        [ discriminate E .. | assumption ].
    + intros H. right. right. right. split; [ assumption | reflexivity ].
  - apply patch_sets_by_presence.
  - intros slug w. apply patchSeasonBySlug_applies.
Qed.

Lemma C7_patch_presence_rules_witness :
  fst (patchSeasonBySlug "s1" (Patch.mk JNull JNull JUndefined JUndefined)
         (quiet [mkSeason 7 "s1" "Season one" (Some "first") 100 200 draft 0 0]))
  = Normal 1%nat
  /\ Forall2
       (fun r r' =>
          if slug_is "s1" r
          then patched_row (Patch.mk JNull JNull JUndefined JUndefined) r r'
          else r' = r)
       [mkSeason 7 "s1" "Season one" (Some "first") 100 200 draft 0 0]
       (seasons
          (snd (patchSeasonBySlug "s1"
                  (Patch.mk JNull JNull JUndefined JUndefined)
                  (quiet [mkSeason 7 "s1" "Season one" (Some "first")
                                   100 200 draft 0 0])))).
Proof.
  destruct (C7_patch_presence_rules
              (Patch.mk JNull JNull JUndefined JUndefined))
    as (_ & _ & _ & _ & _ & H).
  destruct (H "s1"
              (quiet [mkSeason 7 "s1" "Season one" (Some "first")
                               100 200 draft 0 0]))
    as (H1 & _ & H3).
  - reflexivity.
  - reflexivity.
  - simpl. discriminate.
  - exact (conj H1 H3).
Defined.

(** C8 (patch no-op).  When no field passes its presence check (the name
    and the two dates are [null] or [undefined], the description is
    [undefined]), [patchSeasonBySlug] resolves to 0 and leaves the world as
    it is: no storage call is made (the trace and the fault schedule are
    untouched), so no row and no [updated_at] changes. *)
Theorem C8_patch_without_fields_is_noop (slug : string) (patch : Patch.t)
    (w : world) :
  Patch.name patch = JUndefined \/ Patch.name patch = JNull ->
  Patch.description patch = JUndefined ->
  Patch.startAt patch = JUndefined \/ Patch.startAt patch = JNull ->
  Patch.endAt patch = JUndefined \/ Patch.endAt patch = JNull ->
  patchSeasonBySlug slug patch w = (Normal 0%nat, w)
  /\ trace (snd (patchSeasonBySlug slug patch w)) = trace w
  /\ seasons (snd (patchSeasonBySlug slug patch w)) = seasons w
  /\ map updated_at (seasons (snd (patchSeasonBySlug slug patch w)))
     = map updated_at (seasons w).
Proof.
  intros Hn Hd Hs He.
  assert (E : patchSeasonBySlug slug patch w = (Normal 0%nat, w)).
  { destruct patch as [pn pd ps pe]. simpl in *. subst pd.
    destruct Hn as [ -> | -> ], Hs as [ -> | -> ], He as [ -> | -> ];
      reflexivity. }
  rewrite E. repeat split; reflexivity.
Qed.

Lemma C8_patch_without_fields_is_noop_witness :
  patchSeasonBySlug "b" (Patch.mk JNull JUndefined JUndefined JNull)
    (quiet example_table)
  = (Normal 0%nat, quiet example_table).
Proof.
  destruct (C8_patch_without_fields_is_noop "b"
              (Patch.mk JNull JUndefined JUndefined JNull)
              (quiet example_table)) as (H & _).
  - right. reflexivity.
  - reflexivity.
  - left. reflexivity.
  - right. reflexivity.
  - exact H.
Defined.

(** *** Reading *)

Lemma listed_before_order (a b : season) :
  listed_before a b = true <-> listed_order a b.
Proof.
  unfold listed_before, listed_order.
  rewrite orb_true_iff, andb_true_iff, Z.ltb_lt, Z.eqb_eq, Z.leb_le.
  reflexivity.
Qed.

Lemma listed_order_total (a b : season) :
  listed_before a b = false -> listed_order b a.
Proof.
  unfold listed_before, listed_order. intros H.
  apply orb_false_iff in H. destruct H as [H1 H2].
  apply Z.ltb_ge in H1. apply andb_false_iff in H2.
  destruct H2 as [H2 | H2]; [ apply Z.eqb_neq in H2 | apply Z.leb_gt in H2 ];
    lia.
Qed.

Lemma listed_order_trans (a b c : season) :
  listed_order a b -> listed_order b c -> listed_order a c.
Proof. unfold listed_order. lia. Qed.

Lemma insert_row_perm (r : season) (l : list season) :
  Permutation (insert_row r l) (r :: l).
Proof.
  induction l as [ | x l IH ]; simpl; [ reflexivity | ].
  destruct (listed_before r x); [ reflexivity | ].
  rewrite IH. apply perm_swap.
Qed.

Lemma order_by_perm (t : list season) :
  Permutation (order_by_start_desc_id_desc t) t.
Proof.
  induction t as [ | r t IH ]; simpl; [ reflexivity | ].
  rewrite insert_row_perm. constructor. assumption.
Qed.

Lemma insert_row_sorted (r : season) (l : list season) :
  StronglySorted listed_order l -> StronglySorted listed_order (insert_row r l).
Proof.
  induction l as [ | x l IH ]; simpl; intros Hs.
  - constructor; constructor.
  - inversion Hs as [ | ? ? Hl Hx ]; subst.
    destruct (listed_before r x) eqn:E.
    + apply listed_before_order in E.
      constructor; [ assumption | ]. constructor; [ assumption | ].
      eapply Forall_impl; [ | exact Hx ].
      intros y Hy. eapply listed_order_trans; eassumption.
    + apply listed_order_total in E.
      constructor; [ apply IH; assumption | ].
      apply (Permutation_Forall (Permutation_sym (insert_row_perm r l))).
      constructor; assumption.
Qed.

Lemma order_by_sorted (t : list season) :
  StronglySorted listed_order (order_by_start_desc_id_desc t).
Proof.
  induction t as [ | r t IH ]; simpl; [ constructor | ].
  apply insert_row_sorted. assumption.
Qed.

Ltac run_read :=
  cbv [listSeasons getSeasonBySlug getActiveSeason withConn createConnection
       execute conn_end storage_call try_finally bind ret logged store visible
       set_faults set_pending set_seasons seasons pending now faults trace
       run_statement rows_of fst snd].

Lemma listSeasons_calm (w : world) :
  calm 2 (faults w) = true ->
  fst (listSeasons w) = Normal (order_by_start_desc_id_desc (seasons w))
  /\ seasons (snd (listSeasons w)) = seasons w.
Proof.
  destruct w as [t p n fs tr]. cbn [faults seasons]. intros Hcalm.
  destruct fs as [ | [ e0 | ] [ | [ e1 | ] fs ] ]; try discriminate Hcalm;
    run_read; cbn [hd tl]; split; reflexivity.
Qed.

Lemma getSeasonBySlug_calm (s : string) (w : world) :
  calm 2 (faults w) = true ->
  fst (getSeasonBySlug s w) = Normal (hd_error (filter (slug_is s) (seasons w)))
  /\ seasons (snd (getSeasonBySlug s w)) = seasons w.
Proof.
  destruct w as [t p n fs tr]. cbn [faults seasons]. intros Hcalm.
  destruct fs as [ | [ e0 | ] [ | [ e1 | ] fs ] ]; try discriminate Hcalm;
    run_read; cbn [hd tl];
    destruct (filter (slug_is s) t); split; reflexivity.
Qed.

Lemma getActiveSeason_calm (w : world) :
  calm 2 (faults w) = true ->
  fst (getActiveSeason w) = Normal (hd_error (filter is_active (seasons w)))
  /\ seasons (snd (getActiveSeason w)) = seasons w.
Proof.
  destruct w as [t p n fs tr]. cbn [faults seasons]. intros Hcalm.
  destruct fs as [ | [ e0 | ] [ | [ e1 | ] fs ] ]; try discriminate Hcalm;
    run_read; cbn [hd tl];
    destruct (filter is_active t); split; reflexivity.
Qed.

Lemma no_active_rows (t : table) :
  (forall r, In r t -> status r <> active) -> filter is_active t = [].
Proof.
  induction t as [ | x t IH ]; simpl; intros H; [ reflexivity | ].
  destruct (is_active x) eqn:E.
  - apply is_active_true in E. exfalso. apply (H x); auto.
  - apply IH. intros r Hr. apply H. auto.
Qed.

(** C9 (reads).  Without storage fault, [listSeasons] resolves to all the
    rows of the table (a permutation of it), each row standing before the
    rows with an earlier start and, among rows with the same start, before
    the rows with a smaller id.  [getSeasonBySlug] resolves to [null] when no
    row has the slug and [getActiveSeason] resolves to [null] when no row is
    active: neither rejects; when the row exists they resolve to it.  None
    of the three changes the table. *)
Theorem C9_reads (w : world) :
  calm 2 (faults w) = true ->
  (exists rows,
      fst (listSeasons w) = Normal rows
      /\ Permutation rows (seasons w)
      /\ StronglySorted listed_order rows)
  /\ (forall s, ~ In s (map slug (seasons w)) ->
                fst (getSeasonBySlug s w) = Normal None)
  /\ ((forall r, In r (seasons w) -> status r <> active) ->
      fst (getActiveSeason w) = Normal None)
  /\ (forall r, unique_slugs (seasons w) -> In r (seasons w) ->
                fst (getSeasonBySlug (slug r) w) = Normal (Some r))
  /\ (forall r, at_most_one_active (seasons w) -> In r (seasons w) ->
                status r = active ->
                fst (getActiveSeason w) = Normal (Some r))
  /\ seasons (snd (listSeasons w)) = seasons w
  /\ (forall s, seasons (snd (getSeasonBySlug s w)) = seasons w)
  /\ seasons (snd (getActiveSeason w)) = seasons w.
Proof.
  intros Hcalm.
  destruct (listSeasons_calm w Hcalm) as [Hl Hl'].
  destruct (getActiveSeason_calm w Hcalm) as [Ha Ha'].
  split; [ | split; [ | split; [ | split; [ | split;
    [ | split; [ | split ] ] ] ] ] ].
  - exists (order_by_start_desc_id_desc (seasons w)).
    split; [ assumption | split ];
      [ apply order_by_perm | apply order_by_sorted ].
  - intros s Hs. destruct (getSeasonBySlug_calm s w Hcalm) as [-> _].
    rewrite (count_slug_absent s _ Hs). reflexivity.
  - intros Hnone. rewrite Ha, (no_active_rows _ Hnone). reflexivity.
  - intros r Hu Hin. destruct (getSeasonBySlug_calm (slug r) w Hcalm) as [-> _].
    rewrite (filter_slug_unique _ _ Hu Hin). reflexivity.
  - intros r Hone Hin Hact. rewrite Ha.
    assert (F : In r (filter is_active (seasons w)))
      by (apply filter_In; split;
          [ assumption | apply is_active_true; assumption ]).
    unfold at_most_one_active, count_where in Hone.
    destruct (filter is_active (seasons w)) as [ | x [ | y l ] ]; simpl in *;
      [ contradiction | | lia ].
    destruct F as [ -> | [] ]. reflexivity.
  - assumption.
  - intros s. apply (getSeasonBySlug_calm s w Hcalm).
  - assumption.
Qed.

Lemma C9_reads_witness :
  (exists rows,
      fst (listSeasons (quiet example_table)) = Normal rows
      /\ Permutation rows example_table
      /\ StronglySorted listed_order rows)
  /\ fst (getSeasonBySlug "nowhere" (quiet example_table)) = Normal None.
Proof.
  destruct (C9_reads (quiet example_table)) as (H1 & H2 & _).
  - reflexivity.
  - split; [ exact H1 | ].
    apply H2. simpl. intuition discriminate.
Defined.

(* ================================================================== *)
(** * Slug normalisation *)
(* ================================================================== *)

Import Slug.
Local Open Scope N_scope.

Lemma is_slug_unit_cases (c : N) :
  is_slug_unit c = true <-> 97 <= c <= 122 \/ 48 <= c <= 57 \/ c = 45.
Proof.
  unfold is_slug_unit, is_alnum, is_hyphen, hyphen.
  rewrite !orb_true_iff, !andb_true_iff, !N.leb_le, N.eqb_eq. tauto.
Qed.

Lemma is_alnum_cases (c : N) :
  is_alnum c = true <-> 97 <= c <= 122 \/ 48 <= c <= 57.
Proof.
  unfold is_alnum.
  rewrite !orb_true_iff, !andb_true_iff, !N.leb_le. tauto.
Qed.

Lemma slug_unit_not_whitespace (c : N) :
  is_slug_unit c = true -> is_whitespace c = false.
Proof.
  intros H. apply is_slug_unit_cases in H.
  unfold is_whitespace. simpl existsb.
  repeat (apply orb_false_iff; split);
    try reflexivity; try (apply N.eqb_neq; lia).
  apply andb_false_iff. rewrite !N.leb_gt. lia.
Qed.

Lemma alnum_is_slug_unit (c : N) : is_alnum c = true -> is_slug_unit c = true.
Proof. unfold is_slug_unit. intros ->. reflexivity. Qed.

Lemma alnum_not_hyphen (c : N) : is_alnum c = true -> is_hyphen c = false.
Proof.
  intros H. apply is_alnum_cases in H. unfold is_hyphen, hyphen.
  apply N.eqb_neq. lia.
Qed.

Lemma hyphen_not_alnum : is_alnum hyphen = false.
Proof. reflexivity. Qed.

Lemma is_hyphen_eq (c : N) : is_hyphen c = true <-> c = hyphen.
Proof. unfold is_hyphen. apply N.eqb_eq. Qed.

Lemma slug_unit_lower (c : N) :
  is_slug_unit c = true -> (c <? 128) = true /\ ascii_lower c = c.
Proof.
  intros H. apply is_slug_unit_cases in H. split.
  - apply N.ltb_lt. lia.
  - unfold ascii_lower.
    destruct (andb_false_iff (65 <=? c) (c <=? 90)) as [_ E].
    rewrite E; [ reflexivity | ]. rewrite !N.leb_gt. lia.
Qed.

(** *** Each step on a string that is a slug already *)

Lemma trimStart_fixed (s : jsstring) :
  Forall (fun c => is_whitespace c = false) s -> trimStart s = s.
Proof. intros H. destruct H as [ | c l Hc _ ]; simpl; [ | rewrite Hc ]; reflexivity. Qed.

Lemma trim_fixed (s : jsstring) :
  Forall (fun c => is_whitespace c = false) s -> trim s = s.
Proof.
  intros H. unfold trim, trimEnd. rewrite (trimStart_fixed s H).
  rewrite trimStart_fixed; [ apply rev_involutive | ].
  apply Forall_rev. assumption.
Qed.

Lemma lower_from_fixed (unicode_lower : jsstring -> N -> jsstring -> jsstring)
    (before s : jsstring) :
  Forall (fun c => is_slug_unit c = true) s ->
  lower_from unicode_lower before s = s.
Proof.
  intros H. revert before.
  induction H as [ | c l Hc _ IH ]; intros before; simpl; [ reflexivity | ].
  destruct (slug_unit_lower c Hc) as [-> ->]. simpl. rewrite IH. reflexivity.
Qed.

Lemma replace_runs_cons (p : N -> bool) (b c : N) (rest : jsstring) :
  replace_runs p b (c :: rest)
  = if p c then
      match rest with
      | [] => [b]
      | c' :: _ => if p c' then replace_runs p b rest
                   else b :: replace_runs p b rest
      end
    else c :: replace_runs p b rest.
Proof. reflexivity. Qed.

Lemma replace_runs_none (p : N -> bool) (b : N) (s : jsstring) :
  Forall (fun c => p c = false) s -> replace_runs p b s = s.
Proof.
  induction 1 as [ | c l Hc _ IH ]; [ reflexivity | ].
  rewrite replace_runs_cons, Hc, IH. reflexivity.
Qed.

Lemma no_double_cons (a : N) (s : jsstring) :
  no_double_hyphen (a :: s)
  = negb (is_hyphen a && is_hyphen (hd 0 s)) && no_double_hyphen s.
Proof.
  destruct s as [ | c s ]; [ | reflexivity ].
  simpl. rewrite andb_false_r. reflexivity.
Qed.

Lemma replace_runs_hyphen_fixed (s : jsstring) :
  no_double_hyphen s = true -> replace_runs is_hyphen hyphen s = s.
Proof.
  induction s as [ | c rest IH ]; [ reflexivity | ].
  rewrite no_double_cons, replace_runs_cons. intros H.
  apply andb_true_iff in H. destruct H as [H1 H2]. rewrite (IH H2).
  destruct (is_hyphen c) eqn:Ec; [ | reflexivity ].
  apply is_hyphen_eq in Ec. subst c.
  destruct rest as [ | c' r ]; [ reflexivity | ].
  simpl in H1. destruct (is_hyphen c'); [ discriminate | reflexivity ].
Qed.

Lemma filter_fixed (p : N -> bool) (s : jsstring) :
  Forall (fun c => p c = true) s -> filter p s = s.
Proof.
  induction 1 as [ | c l Hc _ IH ]; simpl; [ | rewrite Hc, IH ]; reflexivity.
Qed.

Lemma strip_trailing_fixed (s : jsstring) :
  is_hyphen (last s 0) = false -> strip_trailing_hyphen s = s.
Proof.
  induction s as [ | c rest IH ]; [ reflexivity | ].
  destruct rest as [ | c' r ].
  - simpl. intros ->. reflexivity.
  - intros H. change (strip_trailing_hyphen (c :: c' :: r))
      with (c :: strip_trailing_hyphen (c' :: r)).
    rewrite IH; [ reflexivity | exact H ].
Qed.

Lemma strip_edge_fixed (s : jsstring) :
  is_hyphen (hd 0 s) = false -> is_hyphen (last s 0) = false ->
  strip_edge_hyphens s = s.
Proof.
  intros Hh Hl. unfold strip_edge_hyphens.
  assert (E : strip_leading_hyphen s = s)
    by (destruct s; simpl in *; [ | rewrite Hh ]; reflexivity).
  rewrite E. apply strip_trailing_fixed. assumption.
Qed.

(** *** The shape of what the steps leave *)

Lemma replace_runs_Forall (q : N -> Prop) (p : N -> bool) (b : N)
    (s : jsstring) :
  q b -> Forall q s -> Forall q (replace_runs p b s).
Proof.
  intros Hb. induction 1 as [ | c l Hc Hl IH ]; [ constructor | ].
  rewrite replace_runs_cons. destruct (p c).
  - destruct l as [ | c' r ]; [ repeat constructor; assumption | ].
    destruct (p c'); [ assumption | constructor; assumption ].
  - constructor; assumption.
Qed.

Lemma replace_runs_keeps (p : N -> bool) (b c : N) (s : jsstring) :
  In c s -> p c = false -> In c (replace_runs p b s).
Proof.
  intros Hin Hc. induction s as [ | x l IH ]; [ contradiction | ].
  rewrite replace_runs_cons. destruct Hin as [ -> | Hin ].
  - rewrite Hc. left. reflexivity.
  - specialize (IH Hin). destruct (p x).
    + destruct l as [ | c' r ]; [ contradiction | ].
      destruct (p c'); [ assumption | right; assumption ].
    + right. assumption.
Qed.

Lemma hd_replace_runs_hyphen (s : jsstring) :
  is_hyphen (hd 0 (replace_runs is_hyphen hyphen s)) = is_hyphen (hd 0 s).
Proof.
  induction s as [ | c rest IH ]; [ reflexivity | ].
  rewrite replace_runs_cons. destruct (is_hyphen c) eqn:Ec.
  - destruct rest as [ | c' r ]; [ simpl; rewrite Ec; reflexivity | ].
    destruct (is_hyphen c') eqn:Ec'.
    + rewrite IH. simpl. rewrite Ec, Ec'. reflexivity.
    + simpl. rewrite Ec. reflexivity.
  - simpl. rewrite Ec. reflexivity.
Qed.

Lemma no_double_replace_runs (s : jsstring) :
  no_double_hyphen (replace_runs is_hyphen hyphen s) = true.
Proof.
  induction s as [ | c rest IH ]; [ reflexivity | ].
  rewrite replace_runs_cons. destruct (is_hyphen c) eqn:Ec.
  - destruct rest as [ | c' r ]; [ reflexivity | ].
    destruct (is_hyphen c') eqn:Ec'; [ assumption | ].
    rewrite no_double_cons, hd_replace_runs_hyphen, IH. simpl.
    rewrite Ec'. reflexivity.
  - rewrite no_double_cons, IH, Ec. reflexivity.
Qed.

Lemma strip_trailing_incl (s : jsstring) (c : N) :
  In c (strip_trailing_hyphen s) -> In c s.
Proof.
  induction s as [ | x rest IH ]; [ contradiction | ].
  destruct rest as [ | c' r ].
  - simpl. destruct (is_hyphen x); [ contradiction | tauto ].
  - change (strip_trailing_hyphen (x :: c' :: r))
      with (x :: strip_trailing_hyphen (c' :: r)).
    intros [ -> | H ]; [ left; reflexivity | right; apply IH; assumption ].
Qed.

Lemma strip_edge_incl (s : jsstring) (c : N) :
  In c (strip_edge_hyphens s) -> In c s.
Proof.
  unfold strip_edge_hyphens. intros H. apply strip_trailing_incl in H.
  destruct s as [ | x rest ]; [ contradiction | ].
  simpl in H. destruct (is_hyphen x); [ right | ]; assumption.
Qed.

Lemma strip_trailing_keeps (s : jsstring) (c : N) :
  In c s -> is_hyphen c = false -> In c (strip_trailing_hyphen s).
Proof.
  intros Hin Hc. induction s as [ | x rest IH ]; [ contradiction | ].
  destruct rest as [ | c' r ].
  - destruct Hin as [ -> | [] ]. simpl. rewrite Hc. left. reflexivity.
  - change (strip_trailing_hyphen (x :: c' :: r))
      with (x :: strip_trailing_hyphen (c' :: r)).
    destruct Hin as [ -> | Hin ]; [ left; reflexivity | right; auto ].
Qed.

Lemma strip_edge_keeps (s : jsstring) (c : N) :
  In c s -> is_hyphen c = false -> In c (strip_edge_hyphens s).
Proof.
  intros Hin Hc. unfold strip_edge_hyphens.
  apply strip_trailing_keeps; [ | assumption ].
  destruct s as [ | x rest ]; [ contradiction | ]. simpl.
  destruct (is_hyphen x) eqn:Ex; [ | assumption ].
  destruct Hin as [ -> | Hin ]; [ congruence | assumption ].
Qed.

Lemma hd_strip_trailing (s : jsstring) :
  is_hyphen (hd 0 s) = false ->
  is_hyphen (hd 0 (strip_trailing_hyphen s)) = false.
Proof.
  destruct s as [ | c [ | c' r ] ]; simpl; intros H;
    [ reflexivity | rewrite H; assumption | assumption ].
Qed.

Lemma no_double_strip_trailing (s : jsstring) :
  no_double_hyphen s = true -> no_double_hyphen (strip_trailing_hyphen s) = true.
Proof.
  induction s as [ | c rest IH ]; [ reflexivity | ].
  destruct rest as [ | c' r ].
  - simpl. destruct (is_hyphen c); reflexivity.
  - change (strip_trailing_hyphen (c :: c' :: r))
      with (c :: strip_trailing_hyphen (c' :: r)).
    intros H. rewrite (no_double_cons c (c' :: r)) in H.
    apply andb_true_iff in H. destruct H as [H1 H2].
    rewrite (no_double_cons c (strip_trailing_hyphen (c' :: r))).
    rewrite (IH H2), andb_true_r.
    destruct (is_hyphen c); [ | reflexivity ]. simpl in H1.
    rewrite hd_strip_trailing; [ reflexivity | ].
    simpl. destruct (is_hyphen c'); [ discriminate | reflexivity ].
Qed.

Lemma last_strip_trailing (s : jsstring) :
  no_double_hyphen s = true ->
  is_hyphen (last (strip_trailing_hyphen s) 0) = false.
Proof.
  induction s as [ | c rest IH ]; [ reflexivity | ].
  destruct rest as [ | c' r ].
  - intros _. simpl.
    destruct (is_hyphen c) eqn:Ec; simpl; [ reflexivity | assumption ].
  - change (strip_trailing_hyphen (c :: c' :: r))
      with (c :: strip_trailing_hyphen (c' :: r)).
    rewrite no_double_cons. intros H. apply andb_true_iff in H.
    destruct H as [H1 H2]. specialize (IH H2).
    destruct (strip_trailing_hyphen (c' :: r)) as [ | y l ] eqn:E.
    + simpl. destruct r as [ | c'' r' ]; [ | discriminate E ].
      simpl in E. destruct (is_hyphen c') eqn:Ec'; [ | discriminate E ].
      simpl in H1. rewrite Ec', andb_true_r in H1.
      destruct (is_hyphen c); [ discriminate | reflexivity ].
    + exact IH.
Qed.

Lemma strip_leading_shape (s : jsstring) :
  no_double_hyphen s = true ->
  no_double_hyphen (strip_leading_hyphen s) = true
  /\ is_hyphen (hd 0 (strip_leading_hyphen s)) = false.
Proof.
  destruct s as [ | c rest ]; [ split; reflexivity | ].
  rewrite no_double_cons. intros H. apply andb_true_iff in H.
  destruct H as [H1 H2]. simpl. destruct (is_hyphen c) eqn:Ec.
  - split; [ assumption | ]. simpl in H1.
    destruct (is_hyphen (hd 0 rest)); [ discriminate | reflexivity ].
  - split; [ rewrite no_double_cons, H2, Ec; reflexivity | assumption ].
Qed.

Lemma no_double_app (pre s : jsstring) :
  no_double_hyphen (pre ++ s)%list = true -> no_double_hyphen s = true.
Proof.
  induction pre as [ | c pre IH ]; simpl app; [ tauto | ].
  rewrite no_double_cons. intros H. apply andb_true_iff in H.
  apply IH. tauto.
Qed.

Lemma all_hyphens_collapse (s : jsstring) :
  Forall (fun c => is_hyphen c = true) s ->
  replace_runs is_hyphen hyphen s = [] \/ replace_runs is_hyphen hyphen s = [hyphen].
Proof.
  induction 1 as [ | c l Hc Hl IH ]; [ left; reflexivity | ].
  rewrite replace_runs_cons, Hc.
  destruct Hl as [ | c' r Hc' _ ]; [ right; reflexivity | ].
  rewrite Hc'. destruct IH as [ IH | IH ]; [ left | right ]; assumption.
Qed.

(** *** The whole function *)

Lemma normalizeSlug_is_slug
    (unicode_lower : jsstring -> N -> jsstring -> jsstring) (i : input) :
  is_slug (normalizeSlug unicode_lower i) = true.
Proof.
  unfold normalizeSlug.
  set (F := filter is_slug_unit _).
  assert (HF : Forall (fun c => is_slug_unit c = true) F).
  { apply Forall_forall. intros c Hc. apply filter_In in Hc. tauto. }
  set (C := replace_runs is_hyphen hyphen F).
  assert (HC : Forall (fun c => is_slug_unit c = true) C)
    by (apply replace_runs_Forall; [ reflexivity | assumption ]).
  assert (HD : no_double_hyphen C = true) by apply no_double_replace_runs.
  destruct (strip_leading_shape C HD) as [HD1 HH1].
  unfold is_slug, strip_edge_hyphens.
  repeat (apply andb_true_iff; split).
  - apply forallb_forall. intros c Hc.
    apply (strip_edge_incl C) in Hc. rewrite Forall_forall in HC. auto.
  - apply no_double_strip_trailing. assumption.
  - rewrite hd_strip_trailing; [ reflexivity | assumption ].
  - rewrite last_strip_trailing; [ reflexivity | assumption ].
Qed.

Lemma is_slug_fixed
    (unicode_lower : jsstring -> N -> jsstring -> jsstring) (w : jsstring) :
  is_slug w = true -> normalizeSlug unicode_lower (Str w) = w.
Proof.
  unfold is_slug. rewrite !andb_true_iff, !negb_true_iff.
  intros [ [ [Hu Hd] Hh ] Hl ].
  assert (HU : Forall (fun c => is_slug_unit c = true) w)
    by (apply Forall_forall; apply forallb_forall; assumption).
  assert (HW : Forall (fun c => is_whitespace c = false) w)
    by (eapply Forall_impl; [ | exact HU ]; apply slug_unit_not_whitespace).
  unfold normalizeSlug, toLowerCase. cbn [to_string].
  rewrite (trim_fixed w HW), (lower_from_fixed _ _ w HU).
  rewrite (replace_runs_none _ _ w HW), (filter_fixed _ w HU).
  rewrite (replace_runs_hyphen_fixed w Hd).
  apply strip_edge_fixed; assumption.
Qed.

Lemma normalizeSlug_empty_iff
    (unicode_lower : jsstring -> N -> jsstring -> jsstring) (s : jsstring) :
  normalizeSlug unicode_lower (Str s) = []
  <-> Forall (fun c => is_alnum c = false) (toLowerCase unicode_lower (trim s)).
Proof.
  unfold normalizeSlug. cbn [to_string].
  set (L := toLowerCase unicode_lower (trim s)). split.
  - intros Hempty. apply Forall_forall. intros c Hc.
    destruct (is_alnum c) eqn:Ea; [ exfalso | reflexivity ].
    assert (Hin : In c (strip_edge_hyphens
                          (replace_runs is_hyphen hyphen
                             (filter is_slug_unit
                                (replace_runs is_whitespace hyphen L))))).
    { apply strip_edge_keeps; [ | apply alnum_not_hyphen; assumption ].
      apply replace_runs_keeps; [ | apply alnum_not_hyphen; assumption ].
      apply filter_In. split; [ | apply alnum_is_slug_unit; assumption ].
      apply replace_runs_keeps; [ assumption | ].
      apply slug_unit_not_whitespace, alnum_is_slug_unit. assumption. }
    rewrite Hempty in Hin. contradiction.
  - intros Hnone.
    assert (HA : Forall (fun c => is_alnum c = false)
                        (replace_runs is_whitespace hyphen L))
      by (apply replace_runs_Forall; [ reflexivity | assumption ]).
    assert (HF : Forall (fun c => is_hyphen c = true)
                        (filter is_slug_unit
                           (replace_runs is_whitespace hyphen L))).
    { apply Forall_forall. intros c Hc. apply filter_In in Hc.
      destruct Hc as [Hc Hu]. rewrite Forall_forall in HA.
      specialize (HA c Hc). unfold is_slug_unit in Hu.
      rewrite HA in Hu. exact Hu. }
    destruct (all_hyphens_collapse _ HF) as [ -> | -> ]; reflexivity.
Qed.

(** C10 (slug normalisation).  Whatever the runtime's lowercase mapping of
    the units outside ASCII, [normalizeSlug] is idempotent, and its result
    consists of small ASCII letters, digits and hyphens only, neither starts
    nor ends with a hyphen and has no two hyphens side by side.  For [null]
    and [undefined] the result is the empty string; for a string it is the
    empty string exactly when the trimmed, lowercased string has no unit of
    [[a-z0-9]]. *)
Theorem C10_normalizeSlug_idempotent_shape
    (unicode_lower : jsstring -> N -> jsstring -> jsstring) (i : input) :
  normalizeSlug unicode_lower (Str (normalizeSlug unicode_lower i))
  = normalizeSlug unicode_lower i
  /\ Forall (fun c => 97 <= c <= 122 \/ 48 <= c <= 57 \/ c = 45)
            (normalizeSlug unicode_lower i)
  /\ (forall rest, normalizeSlug unicode_lower i <> 45 :: rest)
  /\ (forall pre, normalizeSlug unicode_lower i <> (pre ++ [45])%list)
  /\ (forall pre post,
        normalizeSlug unicode_lower i <> (pre ++ 45 :: 45 :: post)%list)
  /\ normalizeSlug unicode_lower Null = []
  /\ normalizeSlug unicode_lower Undefined = []
  /\ (forall s,
        normalizeSlug unicode_lower (Str s) = []
        <-> Forall (fun c => is_alnum c = false)
                   (toLowerCase unicode_lower (trim s))).
Proof.
  pose proof (normalizeSlug_is_slug unicode_lower i) as Hslug.
  split; [ apply is_slug_fixed; assumption | ].
  unfold is_slug in Hslug.
  rewrite !andb_true_iff, !negb_true_iff in Hslug.
  destruct Hslug as [ [ [Hu Hd] Hh ] Hl ].
  split; [ | split; [ | split; [ | split; [ | split; [ | split ] ] ] ] ].
  - apply Forall_forall. intros c Hc. apply is_slug_unit_cases.
    rewrite forallb_forall in Hu. auto.
  - intros rest E. rewrite E in Hh. discriminate Hh.
  - intros pre E. rewrite E, last_last in Hl. discriminate Hl.
  - intros pre post E. rewrite E in Hd. apply no_double_app in Hd.
    discriminate Hd.
  - reflexivity.
  - reflexivity.
  - intros s. apply normalizeSlug_empty_iff.
Qed.

Lemma C10_normalizeSlug_idempotent_shape_witness :
  normalizeSlug sample_lower
    (Str (normalizeSlug sample_lower
            (Str (of_string "  Hello   World!! -- 2024 "))))
  = of_string "hello-world-2024".
Proof.
  exact (proj1 (C10_normalizeSlug_idempotent_shape sample_lower
                  (Str (of_string "  Hello   World!! -- 2024 ")))).
Defined.

Local Close Scope N_scope.

(* ================================================================== *)
(** * More of the seasons repo *)
(* ================================================================== *)

Lemma calm_skipn (n m : nat) (fs : list (option js_error)) :
  calm (n + m) fs = true -> calm m (skipn n fs) = true.
Proof.
  revert fs. induction n as [ | n IH ]; intros fs H; [ exact H | ].
  destruct fs as [ | [ e | ] fs ]; simpl in *.
  - destruct m; reflexivity.
  - discriminate.
  - apply IH. assumption.
Qed.

Lemma unique_slugs_activated (s : string) (c : Z) (t : table) :
  unique_slugs t -> unique_slugs (activated s c t).
Proof. unfold unique_slugs. rewrite slugs_activated. tauto. Qed.

Lemma slugs_after_activateSeasonTx (s : string) (w : world) :
  map slug (seasons (snd (activateSeasonTx s w))) = map slug (seasons w).
Proof.
  destruct (activateSeasonTx_outcomes s w) as [ (_ & Hcalm & Hgo) | (_ & ->) ];
    [ | reflexivity ].
  rewrite (activateSeasonTx_committed s w Hcalm Hgo). simpl.
  apply slugs_activated.
Qed.

Lemma closed_row_survives (s : string) (w : world) (r : season) :
  unique_slugs (seasons w) -> In r (seasons w) -> status r = closed ->
  In r (seasons (snd (activateSeasonTx s w))).
Proof.
  intros Hu Hin Hclosed.
  destruct (activateSeasonTx_outcomes s w) as [ (_ & Hcalm & Hgo) | (_ & ->) ];
    [ | assumption ].
  rewrite (activateSeasonTx_committed s w Hcalm Hgo). simpl.
  destruct (activated_map s (now w) (seasons w)) as (g & -> & _ & _ & Hfix).
  rewrite <- (Hfix r); [ apply in_map; assumption | ].
  unfold activated_status. rewrite Hclosed.
  destruct (String.eqb (slug r) s) eqn:E; [ exfalso | reflexivity ].
  apply String.eqb_eq in E. subst s.
  rewrite (activatable_target _ _ Hu Hin), Hclosed in Hgo. discriminate.
Qed.

(** X1 (closed is terminal under activation).  On a table with unique slugs,
    a closed season is still in the table, row unchanged and status closed,
    after any sequence of [activateSeasonTx] calls, whatever the slugs and
    whatever storage faults hit the calls. *)
Theorem closed_stays_closed (slugs : list string) (w : world) (r : season) :
  unique_slugs (seasons w) -> In r (seasons w) -> status r = closed ->
  In r (seasons (snd (activate_each slugs w)))
  /\ status_of (slug r) (seasons (snd (activate_each slugs w))) = Some closed.
Proof.
  revert w. induction slugs as [ | s slugs IH ]; intros w Hu Hin Hclosed.
  - simpl. split; [ assumption | ].
    rewrite (status_of_In _ _ Hu Hin), Hclosed. reflexivity.
  - simpl.
    pose proof (closed_row_survives s w r Hu Hin Hclosed) as Hin1.
    assert (Hu1 : unique_slugs (seasons (snd (activateSeasonTx s w))))
      by (unfold unique_slugs; rewrite slugs_after_activateSeasonTx; exact Hu).
    destruct (activateSeasonTx s w) as [res w1]. simpl in *.
    specialize (IH w1 Hu1 Hin1 Hclosed).
    destruct (activate_each slugs w1). simpl in *. exact IH.
Qed.

Lemma fixed_columns_touch (c : Z) (old new : season) :
  fixed_columns new = fixed_columns old ->
  fixed_columns (touch c old new) = fixed_columns old.
Proof.
  unfold touch. destruct (season_eq_dec old new); [ reflexivity | ].
  intros <-. destruct new; reflexivity.
Qed.

Lemma fixed_columns_update_status (cond : season -> bool) (v : season_status)
    (c : Z) (t : table) :
  map fixed_columns (update_where cond (set_status v) c t)
  = map fixed_columns t.
Proof.
  unfold update_where. rewrite map_map. apply map_ext. intros r.
  destruct (cond r); [ | reflexivity ].
  apply fixed_columns_touch. destruct r; reflexivity.
Qed.

(** X2 (frame of an activation).  Whatever its outcome, [activateSeasonTx]
    changes no column other than [status] and [updated_at]: ids, slugs,
    names, descriptions, dates and creation times are, row by row, what they
    were, and no row is added or removed. *)
Theorem activation_frame (s : string) (w : world) :
  map fixed_columns (seasons (snd (activateSeasonTx s w)))
  = map fixed_columns (seasons w)
  /\ List.length (seasons (snd (activateSeasonTx s w)))
     = List.length (seasons w).
Proof.
  assert (E : map fixed_columns (seasons (snd (activateSeasonTx s w)))
              = map fixed_columns (seasons w)).
  { destruct (activateSeasonTx_outcomes s w)
      as [ (_ & Hcalm & Hgo) | (_ & ->) ]; [ | reflexivity ].
    rewrite (activateSeasonTx_committed s w Hcalm Hgo). simpl.
    unfold activated, promote, demote.
    rewrite !fixed_columns_update_status. reflexivity. }
  split; [ exact E | ].
  rewrite <- (length_map fixed_columns), E. apply length_map.
Qed.

(** *** What a patch leaves alone *)

Lemma set_clause_key_columns (clause : string) (v : jsval)
    (f : season -> season) :
  set_clause clause v = Some f -> forall r, key_columns (f r) = key_columns r.
Proof.
  unfold set_clause.
  repeat match goal with
         | |- context [String.eqb clause ?s] => destruct (String.eqb clause s)
         end;
    destruct v; intros H; inversion H; subst; intros r; reflexivity.
Qed.

Lemma bind_sets_key_columns (sets : list string) (vals rest : list jsval)
    (f : season -> season) :
  bind_sets sets vals = Some (f, rest) ->
  forall r, key_columns (f r) = key_columns r.
Proof.
  revert vals f. induction sets as [ | c sets IH ]; intros vals f; simpl.
  - intros H. inversion H. reflexivity.
  - destruct vals as [ | v vals ]; [ discriminate | ].
    destruct (set_clause c v) as [ f1 | ] eqn:E1; [ | discriminate ].
    destruct (bind_sets sets vals) as [ [g rest'] | ] eqn:E2; [ | discriminate ].
    intros H. inversion H; subst. intros r.
    rewrite (IH _ _ E2), (set_clause_key_columns _ _ _ E1). reflexivity.
Qed.

Lemma key_columns_touch (c : Z) (old new : season) :
  key_columns new = key_columns old ->
  key_columns (touch c old new) = key_columns old.
Proof.
  unfold touch. destruct (season_eq_dec old new); [ reflexivity | ].
  intros <-. destruct new; reflexivity.
Qed.

Lemma key_columns_run_update (sets : list string) (vals : list jsval)
    (c : Z) (t t' : table) (r : result) :
  run_statement (UpdateSet sets vals) c t = Some (r, t') ->
  map key_columns t' = map key_columns t.
Proof.
  simpl. destruct (bind_sets sets vals) as [ [f rest] | ] eqn:E; [ | discriminate ].
  destruct rest as [ | [ | | s | z ] [ | v rest ] ]; try discriminate.
  intros H. inversion H; subst. unfold update_where.
  rewrite map_map. apply map_ext. intros x.
  destruct (slug_is s x); [ | reflexivity ].
  apply key_columns_touch. apply (bind_sets_key_columns _ _ _ _ E).
Qed.

Lemma patchSeasonBySlug_key_columns (slug : string) (patch : Patch.t)
    (w : world) :
  map key_columns (seasons (snd (patchSeasonBySlug slug patch w)))
  = map key_columns (seasons w).
Proof.
  unfold patchSeasonBySlug. destruct (patch_sets patch) as [sets vals].
  destruct (Nat.eqb (List.length sets) 0); [ reflexivity | ].
  destruct w as [t p n fs tr].
  cbv [withConn createConnection execute conn_end storage_call try_finally
       bind ret logged store visible set_faults set_pending set_seasons
       seasons pending now faults trace snd].
  destruct fs as [ | [ e0 | ] [ | [ e1 | ] fs ] ]; cbn [hd tl];
    try reflexivity;
    destruct (run_statement (UpdateSet sets (push vals (JString slug))) (n + 1 + 1) t)
      as [ [r t'] | ] eqn:E; try reflexivity;
    apply (key_columns_run_update _ _ _ _ _ _ E).
Qed.

Lemma same_key_columns (t t' : table) :
  map key_columns t' = map key_columns t ->
  map slug t' = map slug t
  /\ count_where is_active t' = count_where is_active t
  /\ (forall s, status_of s t' = status_of s t).
Proof.
  revert t'. induction t as [ | r t IH ]; intros [ | r' t' ] H;
    try discriminate H.
  - repeat split; reflexivity.
  - simpl in H. unfold key_columns at 1 3 in H.
    injection H as _ Hslug Hstatus _ Ht.
    destruct (IH t' Ht) as (IH1 & IH2 & IH3).
    unfold count_where, status_of, is_active, slug_is in *. simpl.
    rewrite Hslug, Hstatus, IH1.
    split; [ reflexivity | split ].
    + destruct (status_eqb (status r) active); simpl; rewrite IH2; reflexivity.
    + intros s. destruct (String.eqb (slug r) s); simpl;
        [ rewrite Hstatus; reflexivity | apply IH3 ].
Qed.

(** X3 (a patch cannot touch the lifecycle).  Whatever the patch object
    (well typed or not) and whatever storage faults occur,
    [patchSeasonBySlug] leaves the id, slug, status and creation time of
    every row as they were; so the status of every season, the uniqueness of
    slugs and the single-active invariant survive it. *)
Theorem patch_keeps_keys_and_status (slug : string) (patch : Patch.t)
    (w : world) :
  map key_columns (seasons (snd (patchSeasonBySlug slug patch w)))
  = map key_columns (seasons w)
  /\ (forall s, status_of s (seasons (snd (patchSeasonBySlug slug patch w)))
                = status_of s (seasons w))
  /\ (unique_slugs (seasons w) ->
      unique_slugs (seasons (snd (patchSeasonBySlug slug patch w))))
  /\ (at_most_one_active (seasons w) ->
      at_most_one_active (seasons (snd (patchSeasonBySlug slug patch w)))).
Proof.
  pose proof (patchSeasonBySlug_key_columns slug patch w) as E.
  destruct (same_key_columns _ _ E) as (E1 & E2 & E3).
  split; [ exact E | split; [ exact E3 | split ] ].
  - unfold unique_slugs. rewrite E1. tauto.
  - unfold at_most_one_active. rewrite E2. tauto.
Qed.

(** *** Storage failures *)

(** X4 (a failing read rejects and closes its connection).  When the
    SELECT of [listSeasons], [getSeasonBySlug] or [getActiveSeason] rejects
    with [e], the function rejects with [e] (it does not resolve to [null] or
    to an empty list), [conn.end()] is still called, and the table is
    untouched. *)
Theorem reads_reject_and_close (w : world) (e : js_error)
    (rest : list (option js_error)) (s : string) :
  faults w = None :: Some e :: rest ->
  (fst (listSeasons w) = Abrupt e
   /\ trace (snd (listSeasons w))
      = (trace w ++ [CreateConnection; Execute SelectAllOrdered; End])%list
   /\ seasons (snd (listSeasons w)) = seasons w)
  /\ (fst (getSeasonBySlug s w) = Abrupt e
      /\ trace (snd (getSeasonBySlug s w))
         = (trace w ++ [CreateConnection; Execute (SelectBySlug s); End])%list
      /\ seasons (snd (getSeasonBySlug s w)) = seasons w)
  /\ (fst (getActiveSeason w) = Abrupt e
      /\ trace (snd (getActiveSeason w))
         = (trace w ++ [CreateConnection; Execute SelectActive; End])%list
      /\ seasons (snd (getActiveSeason w)) = seasons w).
Proof.
  destruct w as [t p n fs tr]. cbn [faults]. intros ->.
  run_read. cbn [hd tl]. tidy_trace. repeat split; reflexivity.
Qed.

(** X5 (no connection).  When [mysql.createConnection] rejects with [e],
    each of [activateSeasonTx], [listSeasons], [getSeasonBySlug],
    [getActiveSeason], [setSeasonClosed] and [patchSeasonBySlug] (given a
    field to write) rejects with [e], and the only storage call it makes is
    the failed connect: nothing is executed, no rollback is asked for and no
    connection is closed.  [activateSeasonTx] does not turn this failure
    into [tx_failed].  ([insertSeason], the seventh function of the repo, is
    not part of this development.) *)
Theorem connection_failure_rejects (w : world) (e : js_error)
    (rest : list (option js_error)) (s : string) (patch : Patch.t) :
  faults w = Some e :: rest ->
  let failed {A : Type} : completion A * world :=
    (Abrupt e,
     mkWorld (seasons w) (pending w) (now w + 1) rest
             (trace w ++ [CreateConnection])) in
  activateSeasonTx s w = failed
  /\ listSeasons w = failed
  /\ getSeasonBySlug s w = failed
  /\ getActiveSeason w = failed
  /\ setSeasonClosed s w = failed
  /\ (fst (patch_sets patch) <> [] -> patchSeasonBySlug s patch w = failed).
Proof.
  destruct w as [t p n fs tr]. cbn [faults]. intros ->. cbv zeta.
  repeat (split; [ reflexivity | ]).
  intros Hsome. unfold patchSeasonBySlug.
  destruct (patch_sets patch) as [sets vals]. cbn [fst] in Hsome.
  destruct sets as [ | c sets ]; [ congruence | ]. reflexivity.
Qed.

(** *** Activation, then a lookup *)

Lemma filter_map_rows (p q : season -> bool) (g : season -> season)
    (t : table) :
  (forall r, p (g r) = q r) -> filter p (map g t) = map g (filter q t).
Proof.
  intros H. induction t as [ | x t IH ]; simpl; [ reflexivity | ].
  rewrite H. destruct (q x); simpl; rewrite IH; reflexivity.
Qed.

Lemma activatable_selects (s : string) (t : table) :
  unique_slugs t -> activatable s t = true ->
  exists target, filter (slug_is s) t = [target]
                 /\ slug target = s /\ status target <> closed.
Proof.
  intros Hu Hgo. unfold activatable in Hgo.
  pose proof (count_slug_le_1 s t Hu) as Hle. unfold count_where in Hle.
  destruct (filter (slug_is s) t) as [ | target [ | y l ] ] eqn:F;
    simpl in *; [ discriminate | | lia ].
  exists target. split; [ reflexivity | split ].
  - assert (Hin : In target (filter (slug_is s) t)) by (rewrite F; left; reflexivity).
    apply filter_In in Hin. apply slug_is_true, Hin.
  - intros E. rewrite E in Hgo. discriminate.
Qed.

(** X6 (activate, then look up).  After an activation that went through
    on a table with unique slugs, [getActiveSeason] and [getSeasonBySlug]
    of the activated slug resolve to the same row; it has that slug and is
    active. *)
Theorem activated_season_is_found_active (s : string) (w : world) :
  calm 9 (faults w) = true ->
  unique_slugs (seasons w) ->
  activatable s (seasons w) = true ->
  exists r,
    fst (getActiveSeason (snd (activateSeasonTx s w))) = Normal (Some r)
    /\ fst (getSeasonBySlug s (snd (activateSeasonTx s w))) = Normal (Some r)
    /\ slug r = s /\ status r = active.
Proof.
  intros Hcalm Hu Hgo.
  rewrite (activateSeasonTx_committed s w (calm_weaken 9 7 _ ltac:(lia) Hcalm) Hgo).
  cbn [snd].
  set (w1 := mkWorld _ _ _ _ _).
  assert (Hcalm1 : calm 2 (faults w1) = true)
    by (apply (calm_skipn 7 2); exact Hcalm).
  destruct (getActiveSeason_calm w1 Hcalm1) as [-> _].
  destruct (getSeasonBySlug_calm s w1 Hcalm1) as [-> _].
  subst w1. cbn [seasons].
  destruct (activatable_selects s _ Hu Hgo) as (target & F & Hs & _).
  destruct (activated_map s (now w) (seasons w)) as (g & -> & Hslug & Hstatus & _).
  rewrite (filter_map_rows is_active (slug_is s) g), F.
  2:{ intros r. unfold is_active, slug_is. rewrite Hstatus.
      unfold activated_status. destruct (String.eqb (slug r) s); [ reflexivity | ].
      destruct (status r); reflexivity. }
  rewrite (filter_map_rows (slug_is s) (slug_is s) g), F.
  2:{ intros r. unfold slug_is. rewrite Hslug. reflexivity. }
  exists (g target). simpl. repeat split; try reflexivity.
  - rewrite Hslug. exact Hs.
  - rewrite Hstatus, Hs. unfold activated_status.
    rewrite String.eqb_refl. reflexivity.
Qed.

(** *** A patch for a slug that names no row *)

Lemma unmatched_rows_stay (R : season -> season -> Prop) (s : string)
    (t t' : table) :
  ~ In s (map slug t) ->
  Forall2 (fun r r' => if slug_is s r then R r r' else r' = r) t t' ->
  t' = t.
Proof.
  intros Habsent H. induction H as [ | r r' t t' Hr _ IH ]; [ reflexivity | ].
  simpl in Habsent.
  destruct (slug_is s r) eqn:E.
  - apply slug_is_true in E. tauto.
  - subst r'. rewrite IH; [ reflexivity | tauto ].
Qed.

(** X7 (a patch for a slug that names no row).  A patch with a field to
    write, sent for a slug no row has, resolves to 0 affected rows and
    leaves the table as it was: the missing season is not an error. *)
Theorem patch_unknown_slug (slug : string) (patch : Patch.t) (w : world) :
  well_typed patch = true ->
  calm 2 (faults w) = true ->
  fst (patch_sets patch) <> [] ->
  ~ In slug (map Db.slug (seasons w)) ->
  fst (patchSeasonBySlug slug patch w) = Normal 0%nat
  /\ seasons (snd (patchSeasonBySlug slug patch w)) = seasons w.
Proof.
  intros Htyped Hcalm Hsome Habsent.
  destruct (patchSeasonBySlug_applies slug patch w Htyped Hcalm Hsome)
    as (H1 & _ & H3).
  split.
  - rewrite H1. unfold count_where.
    rewrite (count_slug_absent slug _ Habsent). reflexivity.
  - exact (unmatched_rows_stay _ slug _ _ Habsent H3).
Qed.

Lemma Forall2_In_left (R : season -> season -> Prop) (t t' : table)
    (r : season) :
  Forall2 R t t' -> In r t -> exists r', In r' t' /\ R r r'.
Proof.
  induction 1 as [ | x x' l l' Hx _ IH ]; intros Hin; [ contradiction | ].
  destruct Hin as [ -> | Hin ].
  - exists x'. split; [ left; reflexivity | assumption ].
  - destruct (IH Hin) as (r' & Hr' & HR). exists r'. split; [ right | ]; assumption.
Qed.

(** X8 (a closed season can still be patched).  [patchSeasonBySlug] does
    not look at the status: the row of a closed season gets the fields of the
    patch like any other row, and stays closed. *)
Theorem patch_ignores_status (patch : Patch.t) (w : world) (r : season) :
  well_typed patch = true ->
  calm 2 (faults w) = true ->
  fst (patch_sets patch) <> [] ->
  In r (seasons w) ->
  status r = closed ->
  exists r',
    In r' (seasons (snd (patchSeasonBySlug (slug r) patch w)))
    /\ patched_row patch r r'
    /\ status r' = closed.
Proof.
  intros Htyped Hcalm Hsome Hin Hclosed.
  destruct (patchSeasonBySlug_applies (slug r) patch w Htyped Hcalm Hsome)
    as (_ & _ & H3).
  destruct (Forall2_In_left _ _ _ r H3 Hin) as (r' & Hin' & HR).
  unfold slug_is in HR. rewrite String.eqb_refl in HR.
  exists r'. split; [ assumption | split; [ assumption | ] ].
  destruct HR as (_ & Hst & _). congruence.
Qed.

Lemma closed_stays_closed_witness :
  In (row 3 "c" 30 closed)
     (seasons (snd (activate_each ["c"; "b"; "a"; "c"] (quiet example_table)))).
Proof.
  destruct (closed_stays_closed ["c"; "b"; "a"; "c"] (quiet example_table)
              (row 3 "c" 30 closed)) as (H & _).
  - exact example_table_unique.
  - simpl; auto.
  - reflexivity.
  - exact H.
Defined.

Lemma patch_keeps_keys_and_status_witness :
  at_most_one_active
    (seasons (snd (patchSeasonBySlug "a"
                     (Patch.mk (JString "Alpha") JNull JUndefined JUndefined)
                     (quiet example_table)))).
Proof.
  destruct (patch_keeps_keys_and_status "a"
              (Patch.mk (JString "Alpha") JNull JUndefined JUndefined)
              (quiet example_table)) as (_ & _ & _ & H).
  exact (H example_table_one_active).
Defined.

Lemma reads_reject_and_close_witness :
  fst (getActiveSeason
         (mkWorld example_table None 0
                  [None; Some (mkError "Error" "read ECONNRESET")] []))
  = Abrupt (mkError "Error" "read ECONNRESET").
Proof.
  destruct (reads_reject_and_close
              (mkWorld example_table None 0
                       [None; Some (mkError "Error" "read ECONNRESET")] [])
              (mkError "Error" "read ECONNRESET") [] "a")
    as (_ & _ & H & _).
  - reflexivity.
  - exact H.
Defined.

Lemma connection_failure_rejects_witness :
  fst (activateSeasonTx "b"
         (mkWorld example_table None 0
                  [Some (mkError "Error" "connect ECONNREFUSED")] []))
  = Abrupt (mkError "Error" "connect ECONNREFUSED")
  /\ setSeasonClosed "b"
       (mkWorld example_table None 0
                [Some (mkError "Error" "connect ECONNREFUSED")] [])
     = (Abrupt (mkError "Error" "connect ECONNREFUSED"),
        mkWorld example_table None 1 [] [CreateConnection]).
Proof.
  destruct (connection_failure_rejects
              (mkWorld example_table None 0
                       [Some (mkError "Error" "connect ECONNREFUSED")] [])
              (mkError "Error" "connect ECONNREFUSED") [] "b"
              (Patch.mk JNull JNull JNull JNull))
    as (H & _ & _ & _ & Hc & _).
  - reflexivity.
  - rewrite H, Hc. split; reflexivity.
Defined.

Lemma activated_season_is_found_active_witness :
  exists r,
    fst (getActiveSeason (snd (activateSeasonTx "b" (quiet example_table))))
    = Normal (Some r)
    /\ fst (getSeasonBySlug "b" (snd (activateSeasonTx "b" (quiet example_table))))
       = Normal (Some r)
    /\ slug r = "b" /\ status r = active.
Proof.
  apply (activated_season_is_found_active "b" (quiet example_table)).
  - reflexivity.
  - exact example_table_unique.
  - reflexivity.
Defined.

Lemma patch_unknown_slug_witness :
  fst (patchSeasonBySlug "nowhere"
         (Patch.mk (JString "Alpha") JUndefined JUndefined JUndefined)
         (quiet example_table))
  = Normal 0%nat.
Proof.
  destruct (patch_unknown_slug "nowhere"
              (Patch.mk (JString "Alpha") JUndefined JUndefined JUndefined)
              (quiet example_table)) as (H & _).
  - reflexivity.
  - reflexivity.
  - simpl. discriminate.
  - simpl. intuition discriminate.
  - exact H.
Defined.

Lemma patch_ignores_status_witness :
  exists r',
    In r' (seasons (snd (patchSeasonBySlug "c"
                           (Patch.mk (JString "Gamma") JUndefined JUndefined
                                     JUndefined)
                           (quiet example_table))))
    /\ patched_row (Patch.mk (JString "Gamma") JUndefined JUndefined JUndefined)
                   (row 3 "c" 30 closed) r'
    /\ status r' = closed.
Proof.
  apply (patch_ignores_status
           (Patch.mk (JString "Gamma") JUndefined JUndefined JUndefined)
           (quiet example_table) (row 3 "c" 30 closed)).
  - reflexivity.
  - reflexivity.
  - simpl. discriminate.
  - simpl; auto.
  - reflexivity.
Defined.

(* ================================================================== *)
(** * Roles, the admin key and the allowed origin *)
(* ================================================================== *)

Import Slug Auth.
Local Open Scope N_scope.

Lemma jsstring_eqb_eq (a b : jsstring) : jsstring_eqb a b = true <-> a = b.
Proof.
  revert b. induction a as [ | x a IH ]; intros [ | y b ]; simpl;
    try (split; [ discriminate | discriminate ]); [ tauto | ].
  rewrite andb_true_iff, N.eqb_eq, IH. split.
  - intros [-> ->]. reflexivity.
  - intros H. injection H as -> ->. tauto.
Qed.

Lemma strict_eq_eq (a b : maybe_string) : strict_eq a b = true <-> a = b.
Proof.
  destruct a as [ x | ], b as [ y | ]; simpl;
    try (split; [ discriminate | discriminate ]); [ | tauto ].
  rewrite jsstring_eqb_eq. split; [ intros ->; reflexivity | ].
  intros H. injection H as ->. reflexivity.
Qed.

Lemma truthy_iff (v : maybe_string) :
  truthy v = true <-> exists k, k <> [] /\ v = Some k.
Proof.
  destruct v as [ [ | c s ] | ]; simpl; split;
    try discriminate; try (intros (k & Hk & E); congruence).
  intros _. exists (c :: s). split; [ discriminate | reflexivity ].
Qed.

Lemma isAdminKey_iff (key : maybe_string) (req : request) :
  isAdminKey key req = true
  <-> exists k, k <> [] /\ key = Some k /\ x_admin_key req = Some k.
Proof.
  unfold isAdminKey. rewrite andb_true_iff, truthy_iff, strict_eq_eq. split.
  - intros [ (k & Hk & E) Hh ]. exists k. rewrite Hh. tauto.
  - intros (k & Hk & E & Hh). split; [ exists k; tauto | congruence ].
Qed.

(** X9 (the admin key).  [requireAdmin] lets a request through exactly when
    [isAdminKey] holds: [ADMIN_KEY] is configured and not empty and the
    [x-admin-key] header is that very string.  A request let through gets no
    response from the helper; a refused one gets one 401 [Unauthorized].
    With [ADMIN_KEY] unset or empty every request is refused, also one that
    sends no header or an empty one. *)
Theorem admin_key_gate (key : maybe_string) (req : request) (res : exchange) :
  requireAdmin key req res
  = (isAdminKey key req,
     if isAdminKey key req then res else send 401 "Unauthorized" res)
  /\ (isAdminKey key req = true
      <-> exists k, k <> [] /\ key = Some k /\ x_admin_key req = Some k)
  /\ (truthy key = false -> fst (requireAdmin key req res) = false).
Proof.
  split; [ | split; [ apply isAdminKey_iff | ] ].
  - unfold requireAdmin, isAdminKey.
    destruct (truthy key), (strict_eq (x_admin_key req) key); reflexivity.
  - intros H. unfold requireAdmin. rewrite H. reflexivity.
Qed.

Lemma admin_key_gate_witness :
  fst (requireAdmin None (mkRequest None) (mkExchange [] 0)) = false.
Proof.
  destruct (admin_key_gate None (mkRequest None) (mkExchange [] 0))
    as (_ & _ & H).
  exact (H eq_refl).
Defined.

Lemma roleRank_effective
    (unicode_lower : jsstring -> N -> jsstring -> jsstring)
    (key : maybe_string) (req : request) :
  roleRank unicode_lower (Str (getEffectiveRole unicode_lower key req Null))
  = if isAdminKey key req then 3%nat else 1%nat.
Proof.
  unfold getEffectiveRole. destruct (isAdminKey key req); reflexivity.
Qed.

Lemma roleRank_range
    (unicode_lower : jsstring -> N -> jsstring -> jsstring) (role : input) :
  roleRank unicode_lower role = 1%nat
  \/ roleRank unicode_lower role = 2%nat
  \/ roleRank unicode_lower role = 3%nat.
Proof.
  unfold roleRank.
  destruct (jsstring_eqb _ (of_string "admin")); [ tauto | ].
  destruct (jsstring_eqb _ (of_string "editor")); tauto.
Qed.

(** X10 (the role gate).  With no login yet, the effective role of a request
    is [admin] with the admin key and [user] without.  So [requireMinRole]
    lets a request through exactly when it carries the admin key or the
    required role ranks as [user]; it then sends nothing, and otherwise it
    sends one 403 [Forbidden].  The middleware [requireRole] decides the
    same way: it calls [next] once and sends nothing, or sends the 403 and
    does not call [next]. *)
Theorem role_gate (unicode_lower : jsstring -> N -> jsstring -> jsstring)
    (key : maybe_string) (req : request) (res : exchange) (minRole : input) :
  requireMinRole unicode_lower key req res minRole
  = (isAdminKey key req || Nat.eqb (roleRank unicode_lower minRole) 1,
     if isAdminKey key req || Nat.eqb (roleRank unicode_lower minRole) 1
     then res else send 403 "Forbidden" res)
  /\ requireRole unicode_lower key minRole req res
     = (if isAdminKey key req || Nat.eqb (roleRank unicode_lower minRole) 1
        then call_next res else send 403 "Forbidden" res).
Proof.
  unfold requireMinRole, requireRole. rewrite roleRank_effective.
  destruct (roleRank_range unicode_lower minRole) as [ -> | [ -> | -> ] ];
    destruct (isAdminKey key req); split; reflexivity.
Qed.

Lemma lower_from_ascii
    (unicode_lower : jsstring -> N -> jsstring -> jsstring)
    (before s : jsstring) :
  Forall (fun c => c < 128) s ->
  lower_from unicode_lower before s = map ascii_lower s.
Proof.
  intros H. revert before.
  induction H as [ | c l Hc _ IH ]; intros before; simpl; [ reflexivity | ].
  apply N.ltb_lt in Hc. rewrite Hc, IH. reflexivity.
Qed.

(** X11 (role names).  [roleRank] is 1, 2 or 3.  No role at all ([null],
    [undefined], the empty string) ranks as [user].  A role written in ASCII
    ranks 3 exactly when it spells [admin] and 2 exactly when it spells
    [editor], in any mix of capitals and small letters; every other name
    ranks 1. *)
Theorem roleRank_names
    (unicode_lower : jsstring -> N -> jsstring -> jsstring) :
  (forall role, (1 <= roleRank unicode_lower role <= 3)%nat)
  /\ roleRank unicode_lower Null = 1%nat
  /\ roleRank unicode_lower Undefined = 1%nat
  /\ roleRank unicode_lower (Str []) = 1%nat
  /\ (forall s, s <> [] -> Forall (fun c => c < 128) s ->
        (roleRank unicode_lower (Str s) = 3%nat
         <-> map ascii_lower s = of_string "admin")
        /\ (roleRank unicode_lower (Str s) = 2%nat
            <-> map ascii_lower s = of_string "editor")).
Proof.
  split; [ | split; [ reflexivity | split; [ reflexivity | split;
    [ reflexivity | ] ] ] ].
  - intros role.
    destruct (roleRank_range unicode_lower role) as [ -> | [ -> | -> ] ]; lia.
  - intros s Hs Hascii. unfold roleRank, toLowerCase.
    destruct s as [ | c s ]; [ congruence | ]. cbn [or_else].
    rewrite (lower_from_ascii _ _ _ Hascii).
    destruct (jsstring_eqb (map ascii_lower (c :: s)) (of_string "admin")) eqn:Ea.
    + apply jsstring_eqb_eq in Ea. rewrite Ea. split; split; intros H;
        try reflexivity; discriminate H.
    + destruct (jsstring_eqb (map ascii_lower (c :: s)) (of_string "editor")) eqn:Ee.
      * apply jsstring_eqb_eq in Ee. rewrite Ee. split; split; intros H;
          try reflexivity; discriminate H.
      * split; split; intros H; try discriminate H;
          apply jsstring_eqb_eq in H; congruence.
Qed.

Lemma roleRank_names_witness :
  roleRank sample_lower (Str (of_string "AdMiN")) = 3%nat.
Proof.
  destruct (roleRank_names sample_lower) as (_ & _ & _ & _ & H).
  destruct (H (of_string "AdMiN")) as [ [_ H3] _ ].
  - discriminate.
  - repeat constructor.
  - apply H3. reflexivity.
Defined.

(** *** The allowed origin *)

Lemma strip_trailing_slash_cases (s : jsstring) :
  s = (strip_trailing_slash s ++ [slash])%list
  \/ (strip_trailing_slash s = s /\ forall pre, s <> (pre ++ [slash])%list).
Proof.
  induction s as [ | c rest IH ].
  - right. split; [ reflexivity | ]. intros [ | x pre ]; discriminate.
  - destruct rest as [ | c' r ].
    + simpl. destruct (c =? slash) eqn:E.
      * apply N.eqb_eq in E. subst c. left. reflexivity.
      * right. split; [ reflexivity | ]. apply N.eqb_neq in E.
        intros [ | x [ | y pre ] ] H; try discriminate H.
        injection H as ->. congruence.
    + change (strip_trailing_slash (c :: c' :: r))
        with (c :: strip_trailing_slash (c' :: r)).
      destruct IH as [ IH | [IH Hno] ].
      * left. rewrite <- app_comm_cons. f_equal. exact IH.
      * right. split; [ rewrite IH; reflexivity | ].
        intros [ | x pre ] H; [ discriminate H | ].
        injection H as _ H. exact (Hno pre H).
Qed.

Lemma allowedOrigin_set (s : jsstring) :
  allowedOrigin (Some s)
  = match strip_trailing_slash (trim s) with
    | [] => default_origin
    | c :: v => c :: v
    end.
Proof. destruct s; reflexivity. Qed.

Lemma strip_trailing_slash_app (v : jsstring) :
  strip_trailing_slash (v ++ [slash])%list = v.
Proof.
  induction v as [ | c v IH ]; [ reflexivity | ].
  rewrite <- app_comm_cons.
  destruct v as [ | c' v ]; [ reflexivity | ].
  change (c :: strip_trailing_slash ((c' :: v) ++ [slash])%list = c :: c' :: v).
  rewrite IH. reflexivity.
Qed.

(** X12 (the allowed origin).  [allowedOrigin] is the [ALLOWED_ORIGIN]
    setting with the white space around it trimmed and then one slash at
    its end, if there is one, removed: a trimmed setting [v + "/"] gives
    [v], a trimmed setting that does not end with a slash is taken as it is.
    It is never the empty string: with the setting unset, empty, blank or a
    lone slash it is the built-in default.  Only one slash is removed, so
    the allowed origin ends with a slash exactly when the trimmed setting
    ends with two.  The CORS check lets a request through when it has no
    [Origin] header (or an empty one) and otherwise exactly when the header
    is the allowed origin, character for character. *)
Theorem allowedOrigin_shape (env : maybe_string) :
  allowedOrigin env <> []
  /\ (truthy env = false -> allowedOrigin env = default_origin)
  /\ (forall s, env = Some s -> strip_trailing_slash (trim s) = [] ->
                allowedOrigin env = default_origin)
  /\ (forall s, env = Some s -> trim s = [] \/ trim s = [slash] ->
                allowedOrigin env = default_origin)
  /\ (forall s v, env = Some s -> v <> [] ->
                  trim s = (v ++ [slash])%list ->
                  allowedOrigin env = v)
  /\ (forall s, env = Some s -> trim s <> [] ->
                (forall pre, trim s <> (pre ++ [slash])%list) ->
                allowedOrigin env = trim s)
  /\ (forall s, env = Some s ->
                (forall pre, trim s <> (pre ++ [slash; slash])%list) ->
                forall pre, allowedOrigin env <> (pre ++ [slash])%list)
  /\ (forall s pre, env = Some s ->
                    trim s = (pre ++ [slash; slash])%list ->
                    allowedOrigin env = (pre ++ [slash])%list)
  /\ (forall origin,
        cors_origin env origin = true
        <-> truthy origin = false \/ origin = Some (allowedOrigin env)).
Proof.
  split; [ | split; [ | split; [ | split; [ | split; [ | split;
    [ | split; [ | split ] ] ] ] ] ] ].
  - unfold allowedOrigin. destruct (strip_trailing_slash _); discriminate.
  - destruct env as [ [ | c s ] | ]; try discriminate; reflexivity.
  - intros s -> H. rewrite allowedOrigin_set, H. reflexivity.
  - intros s -> [ H | H ]; rewrite allowedOrigin_set, H; reflexivity.
  - intros s v -> Hv H.
    rewrite allowedOrigin_set, H, strip_trailing_slash_app.
    destruct v; [ congruence | reflexivity ].
  - intros s -> Hne Hno. rewrite allowedOrigin_set.
    destruct (strip_trailing_slash_cases (trim s)) as [ Hc | [Hc _] ].
    + exfalso. exact (Hno _ Hc).
    + rewrite Hc. destruct (trim s); [ congruence | reflexivity ].
  - intros s -> Hno pre. rewrite allowedOrigin_set.
    destruct (strip_trailing_slash (trim s)) as [ | c v ] eqn:Ev.
    + intros H.
      assert (L : last default_origin 0 = last (pre ++ [slash])%list 0)
        by (rewrite H; reflexivity).
      rewrite last_last in L. vm_compute in L. discriminate L.
    + intros H.
      destruct (strip_trailing_slash_cases (trim s)) as [ Hc | [Hc Hn] ].
      * apply (Hno pre). rewrite Hc, Ev, H, <- app_assoc. reflexivity.
      * apply (Hn pre). rewrite <- Hc, Ev. exact H.
  - intros s pre -> H.
    change (pre ++ [slash; slash])%list
      with (pre ++ [slash] ++ [slash])%list in H.
    rewrite app_assoc in H.
    rewrite allowedOrigin_set, H, strip_trailing_slash_app.
    destruct pre; reflexivity.
  - intros origin. unfold cors_origin.
    destruct (truthy origin); simpl.
    + rewrite strict_eq_eq. split; [ tauto | ].
      intros [ H | H ]; [ discriminate H | exact H ].
    + tauto.
Qed.

Lemma allowedOrigin_shape_witness :
  allowedOrigin (Some (of_string " / ")) = default_origin
  /\ allowedOrigin (Some (of_string " https://hsc.example/ "))
     = of_string "https://hsc.example"
  /\ forall pre,
       allowedOrigin (Some (of_string "https://hsc.example/ "))
       <> (pre ++ [slash])%list.
Proof.
  destruct (allowedOrigin_shape (Some (of_string " / ")))
    as (_ & _ & H3 & _).
  destruct (allowedOrigin_shape (Some (of_string " https://hsc.example/ ")))
    as (_ & _ & _ & _ & H5 & _).
  destruct (allowedOrigin_shape (Some (of_string "https://hsc.example/ ")))
    as (_ & _ & _ & _ & _ & _ & H7 & _).
  split; [ | split ].
  - apply (H3 (of_string " / ")); reflexivity.
  - apply (H5 (of_string " https://hsc.example/ ")
              (of_string "https://hsc.example"));
      [ reflexivity | discriminate | reflexivity ].
  - apply (H7 (of_string "https://hsc.example/ ")); [ reflexivity | ].
    intros pre H.
    assert (L : last (removelast (trim (of_string "https://hsc.example/ "))) 0
                = last (removelast (pre ++ [slash; slash])%list) 0)
      by (rewrite H; reflexivity).
    change (pre ++ [slash; slash])%list
      with (pre ++ [slash] ++ [slash])%list in L.
    rewrite app_assoc, removelast_last, last_last in L.
    vm_compute in L. discriminate L.
Defined.

Local Close Scope N_scope.

(* ================================================================== *)
(** * Sessions *)
(* ================================================================== *)

Section SessionFacts.

Import Slug Auth Sessions.

Ltac run_task :=
  cbv [createSession getSession revokeSession nowPlusMinutes Date_now
       randomBytes createConnection execute_session connection_end
       session_call_to task_bind task_ret set_sessions
       sessions date_now sql_now entropy drawn failures calls
       run_session_statement fst snd].

Lemma jsstring_eqb_refl (a : jsstring) : jsstring_eqb a a = true.
Proof. apply jsstring_eqb_eq. reflexivity. Qed.

Lemma not_among_not_live (id : jsstring) (clock : Z) (t : list session) :
  existsb (sid_is id) t = false -> filter (is_live id clock) t = [].
Proof.
  induction t as [ | r t IH ]; simpl; [ reflexivity | ].
  intros H. apply orb_false_iff in H. destruct H as [H1 H2].
  unfold is_live at 1. rewrite H1. simpl. apply IH. assumption.
Qed.

Lemma hex_digit_is_hex (d : N) : (d < 16)%N -> is_hex_digit (hex_digit d) = true.
Proof.
  intros H. unfold hex_digit, is_hex_digit.
  destruct (N.ltb_spec d 10).
  - apply orb_true_iff. left. apply andb_true_iff.
    rewrite !N.leb_le. lia.
  - apply orb_true_iff. right. apply andb_true_iff.
    rewrite !N.leb_le. lia.
Qed.

Lemma toString_hex_shape (bytes : list N) :
  Forall (fun b => (b < 256)%N) bytes ->
  List.length (toString_hex bytes) = (2 * List.length bytes)%nat
  /\ Forall (fun c => is_hex_digit c = true) (toString_hex bytes).
Proof.
  induction 1 as [ | b l Hb _ [IH1 IH2] ]; simpl.
  - split; [ reflexivity | constructor ].
  - split; [ rewrite IH1; lia | ].
    constructor; [ | constructor; [ | assumption ] ]; apply hex_digit_is_hex.
    + apply N.Div0.div_lt_upper_bound. lia.
    + apply N.mod_lt. lia.
Qed.

Lemma next_sid_shape (w : process) :
  List.length (next_sid w) = 64%nat
  /\ Forall (fun c => is_hex_digit c = true) (next_sid w).
Proof.
  unfold next_sid.
  destruct (toString_hex_shape
              (map (fun i => (entropy w (drawn w + i)%nat mod 256)%N) (seq 0 32)))
    as [H1 H2].
  - apply Forall_forall. intros b Hb. apply in_map_iff in Hb.
    destruct Hb as (i & <- & _). apply N.mod_lt. lia.
  - split; [ | assumption ]. rewrite H1, length_map, length_seq. reflexivity.
Qed.

Lemma createSession_quiet (ttl : Z) (key : bool) (dt : Z -> Z) (uid : Z)
    (w : process) :
  quiet_for 2 (failures w) = true ->
  existsb (sid_is (next_sid w)) (sessions w) = false ->
  fst (createSession ttl key dt uid w) = Normal (next_sid w)
  /\ sessions (snd (createSession ttl key dt uid w))
     = (sessions w
        ++ [mkSession (next_sid w) uid (dt (date_now w + ttl * 60 * 1000)%Z)
                      None])%list
  /\ calls (snd (createSession ttl key dt uid w))
     = (calls w
        ++ [Connect;
            Run (InsertSession (next_sid w) uid
                               (date_now w + ttl * 60 * 1000)%Z);
            Disconnect])%list.
Proof.
  intros Hq Hfresh. unfold next_sid in *.
  destruct w as [t dn sn en dr fs cs].
  cbv [failures sessions entropy drawn] in Hq, Hfresh.
  run_task.
  destruct fs as [ | [ e0 | ] [ | [ e1 | ] fs ] ]; try discriminate Hq;
    cbn [hd tl]; rewrite Hfresh, andb_false_r; tidy_trace;
    repeat split; reflexivity.
Qed.

Lemma getSession_quiet (ttl : Z) (key : bool) (dt : Z -> Z) (id : jsstring)
    (w : process) :
  id <> [] ->
  quiet_for 2 (failures w) = true ->
  fst (getSession key dt (Str id) w)
  = Normal (option_map user_id
              (hd_error (filter (is_live id (sql_now w)) (sessions w))))
  /\ sessions (snd (getSession key dt (Str id) w)) = sessions w.
Proof.
  intros Hid Hq. destruct id as [ | c s ]; [ congruence | ].
  destruct w as [t dn sn en dr fs cs]. cbn [failures] in Hq.
  run_task.
  destruct fs as [ | [ e0 | ] [ | [ e1 | ] fs ] ]; try discriminate Hq;
    cbn [hd tl sessions sql_now];
    destruct (filter (is_live (c :: s) sn) t); split; reflexivity.
Qed.

Lemma revokeSession_quiet (key : bool) (dt : Z -> Z) (id : jsstring)
    (w : process) :
  id <> [] ->
  quiet_for 2 (failures w) = true ->
  fst (revokeSession key dt (Str id) w) = Normal tt
  /\ sessions (snd (revokeSession key dt (Str id) w))
     = map (fun r => if is_unrevoked id r
                     then mkSession (sid r) (user_id r) (expires_at r)
                                    (Some (sql_now w))
                     else r)
           (sessions w).
Proof.
  intros Hid Hq. destruct id as [ | c s ]; [ congruence | ].
  destruct w as [t dn sn en dr fs cs]. cbn [failures] in Hq.
  run_task.
  destruct fs as [ | [ e0 | ] [ | [ e1 | ] fs ] ]; try discriminate Hq;
    cbn [hd tl sessions sql_now]; split; reflexivity.
Qed.

(** X13 (create a session, then look it up).  When the storage answers and
    the drawn id is not in the table yet, [createSession] resolves to an id of
    64 hexadecimal digits and adds one row for the user; a later
    [getSession] of that id resolves to the user as long as the server's
    [NOW()] is before the stored expiry (creation time plus [ttlMinutes]),
    and to [null] from then on. *)
Theorem session_round_trip (ttl : Z) (key : bool) (dt : Z -> Z) (uid : Z)
    (w : process) :
  quiet_for 2 (failures w) = true ->
  existsb (sid_is (next_sid w)) (sessions w) = false ->
  fst (createSession ttl key dt uid w) = Normal (next_sid w)
  /\ List.length (next_sid w) = 64%nat
  /\ Forall (fun c => is_hex_digit c = true) (next_sid w)
  /\ sessions (snd (createSession ttl key dt uid w))
     = (sessions w
        ++ [mkSession (next_sid w) uid (dt (date_now w + ttl * 60 * 1000)%Z)
                      None])%list
  /\ (forall w2,
        sessions w2 = sessions (snd (createSession ttl key dt uid w)) ->
        quiet_for 2 (failures w2) = true ->
        fst (getSession key dt (Str (next_sid w)) w2)
        = Normal (if (sql_now w2 <? dt (date_now w + ttl * 60 * 1000))%Z
                  then Some uid else None)).
Proof.
  intros Hq Hfresh.
  destruct (createSession_quiet ttl key dt uid w Hq Hfresh) as (H1 & H2 & _).
  destruct (next_sid_shape w) as [Hlen Hhex].
  repeat (split; [ assumption | ]).
  intros w2 Ht Hq2.
  assert (Hid : next_sid w <> [])
    by (intros E; rewrite E in Hlen; discriminate Hlen).
  destruct (getSession_quiet ttl key dt (next_sid w) w2 Hid Hq2) as [-> _].
  rewrite Ht, H2, filter_app, (not_among_not_live _ _ _ Hfresh).
  cbn [filter app]. unfold is_live at 1, sid_is.
  cbn [sid revoked_at expires_at]. rewrite jsstring_eqb_refl. cbn [andb].
  destruct (sql_now w2 <? dt (date_now w + ttl * 60 * 1000))%Z; reflexivity.
Qed.

Lemma revoked_not_live (id : jsstring) (c d : Z) (t : list session) :
  filter (is_live id d)
         (map (fun r => if is_unrevoked id r
                        then mkSession (sid r) (user_id r) (expires_at r) (Some c)
                        else r) t)
  = [].
Proof.
  induction t as [ | r t IH ]; simpl; [ reflexivity | ].
  rewrite IH. unfold is_unrevoked, is_live, sid_is.
  destruct (jsstring_eqb (sid r) id) eqn:E; simpl.
  - destruct (revoked_at r) eqn:R; simpl; rewrite ?E, ?R; reflexivity.
  - rewrite E. reflexivity.
Qed.

Lemma live_unless_revoked (id id' : jsstring) (c d : Z) (r : session) :
  id' <> id ->
  is_live id' d
    (if is_unrevoked id r
     then mkSession (sid r) (user_id r) (expires_at r) (Some c) else r)
  = is_live id' d r.
Proof.
  intros Hne. unfold is_unrevoked, sid_is.
  destruct (jsstring_eqb (sid r) id) eqn:E; [ | reflexivity ].
  apply jsstring_eqb_eq in E.
  assert (E' : jsstring_eqb (sid r) id' = false).
  { destruct (jsstring_eqb (sid r) id') eqn:E'; [ | reflexivity ].
    apply jsstring_eqb_eq in E'. congruence. }
  destruct (revoked_at r); cbn [andb]; [ reflexivity | ].
  unfold is_live, sid_is. cbn [sid]. rewrite E'. reflexivity.
Qed.

Lemma others_stay_live (id id' : jsstring) (c d : Z) (t : list session) :
  id' <> id ->
  option_map user_id
    (hd_error
       (filter (is_live id' d)
          (map (fun r => if is_unrevoked id r
                         then mkSession (sid r) (user_id r) (expires_at r) (Some c)
                         else r) t)))
  = option_map user_id (hd_error (filter (is_live id' d) t)).
Proof.
  intros Hne. induction t as [ | r t IH ]; [ reflexivity | ].
  cbn [map filter]. rewrite (live_unless_revoked id id' c d r Hne).
  destruct (is_live id' d r); [ | exact IH ].
  cbn [hd_error option_map]. destruct (is_unrevoked id r); reflexivity.
Qed.

Lemma revoke_twice (id : jsstring) (c d : Z) (t : list session) :
  map (fun r => if is_unrevoked id r
                then mkSession (sid r) (user_id r) (expires_at r) (Some d)
                else r)
      (map (fun r => if is_unrevoked id r
                     then mkSession (sid r) (user_id r) (expires_at r) (Some c)
                     else r) t)
  = map (fun r => if is_unrevoked id r
                  then mkSession (sid r) (user_id r) (expires_at r) (Some c)
                  else r) t.
Proof.
  rewrite map_map. apply map_ext. intros r.
  destruct (is_unrevoked id r) eqn:E; [ | rewrite E; reflexivity ].
  unfold is_unrevoked in *. simpl.
  rewrite andb_false_r. reflexivity.
Qed.

(** X14 (revocation).  After [revokeSession] of an id went through,
    [getSession] of that id resolves to [null] at any time.  The lookup of
    every other id answers as it would have answered before.  Revoking
    again changes nothing: the row keeps the time of its first revocation. *)
Theorem revoked_session_is_gone (key : bool) (dt : Z -> Z) (id : jsstring)
    (w : process) :
  id <> [] ->
  quiet_for 2 (failures w) = true ->
  (forall w2,
     sessions w2 = sessions (snd (revokeSession key dt (Str id) w)) ->
     quiet_for 2 (failures w2) = true ->
     fst (getSession key dt (Str id) w2) = Normal None)
  /\ (forall id' w0 w2,
        id' <> id -> id' <> [] ->
        sessions w0 = sessions w ->
        sessions w2 = sessions (snd (revokeSession key dt (Str id) w)) ->
        sql_now w2 = sql_now w0 ->
        quiet_for 2 (failures w0) = true ->
        quiet_for 2 (failures w2) = true ->
        fst (getSession key dt (Str id') w2)
        = fst (getSession key dt (Str id') w0))
  /\ (forall w2,
        sessions w2 = sessions (snd (revokeSession key dt (Str id) w)) ->
        quiet_for 2 (failures w2) = true ->
        sessions (snd (revokeSession key dt (Str id) w2)) = sessions w2).
Proof.
  intros Hid Hq.
  destruct (revokeSession_quiet key dt id w Hid Hq) as [_ Ht].
  split; [ | split ].
  - intros w2 Hw2 Hq2.
    destruct (getSession_quiet 0 key dt id w2 Hid Hq2) as [-> _].
    rewrite Hw2, Ht, revoked_not_live. reflexivity.
  - intros id' w0 w2 Hne Hid' Hw0 Hw2 Hclock Hq0 Hq2.
    destruct (getSession_quiet 0 key dt id' w2 Hid' Hq2) as [-> _].
    destruct (getSession_quiet 0 key dt id' w0 Hid' Hq0) as [-> _].
    rewrite Hw2, Ht, Hw0, Hclock, (others_stay_live id id' _ _ _ Hne).
    reflexivity.
  - intros w2 Hw2 Hq2.
    destruct (revokeSession_quiet key dt id w2 Hid Hq2) as [_ ->].
    rewrite Hw2, Ht. apply revoke_twice.
Qed.

(** X15 (no id, or no answer).  With no session id ([null], [undefined] or
    the empty string) [getSession] resolves to [null] and [revokeSession]
    returns without any storage call, whatever the state of the storage.
    When the statement of [createSession], [getSession] or [revokeSession]
    rejects, the function rejects with that error, leaves the table as it
    was, and never calls [connection.end()]: the connection stays open. *)
Theorem session_calls_and_failures (ttl : Z) (key : bool) (dt : Z -> Z)
    (w : process) :
  (forall id, id = Null \/ id = Undefined \/ id = Str [] ->
     getSession key dt id w = (Normal None, w)
     /\ revokeSession key dt id w = (Normal tt, w))
  /\ (forall e rest id uid,
        failures w = None :: Some e :: rest -> id <> [] ->
        (fst (getSession key dt (Str id) w) = Abrupt e
         /\ calls (snd (getSession key dt (Str id) w))
            = (calls w ++ [Connect; Run (SelectUser id)])%list
         /\ sessions (snd (getSession key dt (Str id) w)) = sessions w)
        /\ (fst (revokeSession key dt (Str id) w) = Abrupt e
            /\ calls (snd (revokeSession key dt (Str id) w))
               = (calls w ++ [Connect; Run (RevokeSession id)])%list
            /\ sessions (snd (revokeSession key dt (Str id) w)) = sessions w)
        /\ (fst (createSession ttl key dt uid w) = Abrupt e
            /\ calls (snd (createSession ttl key dt uid w))
               = (calls w
                  ++ [Connect;
                      Run (InsertSession (next_sid w) uid
                             (date_now w + ttl * 60 * 1000)%Z)])%list
            /\ sessions (snd (createSession ttl key dt uid w)) = sessions w)).
Proof.
  split.
  - intros id [ -> | [ -> | -> ] ]; split; reflexivity.
  - intros e rest id uid Hf Hid.
    destruct id as [ | c s ]; [ congruence | ].
    unfold next_sid.
    destruct w as [t dn sn en dr fs cs]. cbn [failures] in Hf. subst fs.
    run_task. cbn [hd tl]. tidy_trace. repeat split; reflexivity.
Qed.

Lemma session_round_trip_witness :
  fst (getSession true (fun z => z) (Str (next_sid sample_process))
         (snd (createSession 60 true (fun z => z) 7 sample_process)))
  = Normal (Some 7%Z).
Proof.
  destruct (session_round_trip 60 true (fun z => z) 7 sample_process)
    as (_ & _ & _ & _ & H).
  - reflexivity.
  - reflexivity.
  - exact (H (snd (createSession 60 true (fun z => z) 7 sample_process))
             eq_refl eq_refl).
Defined.

Lemma revoked_session_is_gone_witness :
  fst (getSession true (fun z => z) (Str (of_string "ab"))
         (snd (revokeSession true (fun z => z) (Str (of_string "ab"))
                 sample_process)))
  = Normal None.
Proof.
  destruct (revoked_session_is_gone true (fun z => z) (of_string "ab")
              sample_process) as (H & _).
  - discriminate.
  - reflexivity.
  - exact (H (snd (revokeSession true (fun z => z) (Str (of_string "ab"))
                     sample_process)) eq_refl eq_refl).
Defined.

Lemma session_calls_and_failures_witness :
  getSession true (fun z => z) Null sample_process
  = (Normal None, sample_process).
Proof.
  destruct (session_calls_and_failures 60 true (fun z => z) sample_process)
    as (H & _).
  destruct (H Null) as (H1 & _).
  - left. reflexivity.
  - exact H1.
Defined.

End SessionFacts.

(* ================================================================== *)
(** * Closing a season and the lifecycle *)
(* ================================================================== *)

Ltac run_closing :=
  cbv [setSeasonClosed withConn createConnection execute_closing conn_end
       storage_call try_finally bind ret logged store visible set_faults
       set_pending set_seasons seasons pending now faults trace
       run_closing_statement affectedRows_of fst snd].

Lemma setSeasonClosed_calm (s : string) (w : world) :
  calm 2 (faults w) = true ->
  setSeasonClosed s w
  = (Normal (count_where (slug_is s) (seasons w)),
     mkWorld (update_where (slug_is s) (set_status closed) (now w + 2)
                           (seasons w))
             None (now w + 3) (skipn 2 (faults w))
             (trace w
              ++ [CreateConnection;
                  Execute (UpdateSet ["status = 'closed'"] [JString s]);
                  End])%list).
Proof.
  destruct w as [t p n fs tr]. cbn [faults seasons now trace]. intros Hcalm.
  run_closing.
  destruct fs as [ | [ e0 | ] [ | [ e1 | ] fs ] ]; try discriminate Hcalm;
    cbn [hd tl String.eqb Ascii.eqb Bool.eqb andb skipn]; tidy_trace;
    repeat (f_equal; try lia).
Qed.

Lemma setSeasonClosed_outcomes (s : string) (w : world) :
  seasons (snd (setSeasonClosed s w)) = seasons w
  \/ exists c,
       seasons (snd (setSeasonClosed s w))
       = update_where (slug_is s) (set_status closed) c (seasons w).
Proof.
  destruct w as [t p n fs tr]. run_closing.
  destruct fs as [ | [ e0 | ] [ | [ e1 | ] fs ] ];
    cbn [hd tl String.eqb Ascii.eqb Bool.eqb andb];
    first [ left; reflexivity | right; eexists; reflexivity ].
Qed.

Lemma closing_map (s : string) (c : Z) (t : table) :
  exists g : season -> season,
    update_where (slug_is s) (set_status closed) c t = map g t
    /\ (forall r, slug (g r) = slug r)
    /\ (forall r, status (g r) = if slug_is s r then closed else status r)
    /\ (forall r, slug_is s r = false -> g r = r).
Proof.
  exists (fun r => if slug_is s r then touch c r (set_status closed r) else r).
  split; [ reflexivity | split; [ | split ] ]; intros r.
  - destruct (slug_is s r); [ rewrite slug_touch | ]; reflexivity.
  - destruct (slug_is s r); [ rewrite status_touch | ]; reflexivity.
  - intros ->. reflexivity.
Qed.

Lemma closing_keeps_invariant (s : string) (c : Z) (t : table) :
  map slug (update_where (slug_is s) (set_status closed) c t) = map slug t
  /\ (count_where is_active (update_where (slug_is s) (set_status closed) c t)
      <= count_where is_active t)%nat
  /\ (forall s', status_of s' t = Some closed ->
        status_of s' (update_where (slug_is s) (set_status closed) c t)
        = Some closed).
Proof.
  destruct (closing_map s c t) as (g & -> & Hslug & Hstatus & _).
  split; [ | split ].
  - rewrite map_map. apply map_ext. assumption.
  - assert (H : forall x, is_active (g x) = true -> is_active x = true).
    { intros x. unfold is_active. rewrite Hstatus.
      destruct (slug_is s x); [ discriminate | tauto ]. }
    unfold count_where. induction t as [ | x t IH ]; simpl; [ lia | ].
    destruct (is_active (g x)) eqn:E.
    + rewrite (H x E). simpl. lia.
    + destruct (is_active x); simpl; lia.
  - intros s'. unfold status_of. rewrite find_slug_map by assumption.
    destruct (find (slug_is s') t) as [ r | ]; simpl; [ | discriminate ].
    rewrite Hstatus. intros H. destruct (slug_is s r); congruence.
Qed.

Lemma closed_status_survives_activation (s s' : string) (w : world) :
  status_of s' (seasons w) = Some closed ->
  status_of s' (seasons (snd (activateSeasonTx s w))) = Some closed.
Proof.
  intros Hclosed.
  destruct (activateSeasonTx_outcomes s w) as [ (_ & Hcalm & Hgo) | (_ & ->) ];
    [ | assumption ].
  rewrite (activateSeasonTx_committed s w Hcalm Hgo). simpl.
  rewrite status_of_activated, Hclosed. simpl. unfold activated_status.
  destruct (String.eqb s' s) eqn:E; [ exfalso | reflexivity ].
  apply String.eqb_eq in E. subst s'.
  unfold activatable in Hgo. unfold status_of in Hclosed.
  rewrite find_slug_filter in Hclosed.
  destruct (hd_error (filter (slug_is s) (seasons w))) as [ r | ];
    simpl in Hclosed; [ | discriminate ].
  injection Hclosed as Hc. rewrite Hc in Hgo. discriminate Hgo.
Qed.

Lemma run_operation_keeps (o : operation) (w : world) :
  unique_slugs (seasons w) -> at_most_one_active (seasons w) ->
  unique_slugs (seasons (run_operation o w))
  /\ at_most_one_active (seasons (run_operation o w))
  /\ (forall s, status_of s (seasons w) = Some closed ->
                status_of s (seasons (run_operation o w)) = Some closed).
Proof.
  intros Hu Hone. destruct o as [ s | s p | s ]; simpl.
  - destruct (activateSeasonTx_keeps_invariant s w Hu Hone) as [H1 H2].
    split; [ assumption | split; [ assumption | ] ].
    intros s'. apply closed_status_survives_activation.
  - destruct (same_key_columns _ _ (patchSeasonBySlug_key_columns s p w))
      as (H1 & H2 & H3).
    split; [ unfold unique_slugs; rewrite H1; assumption | ].
    split; [ unfold at_most_one_active; rewrite H2; assumption | ].
    intros s' H. rewrite H3. assumption.
  - destruct (setSeasonClosed_outcomes s w) as [ -> | [c ->] ].
    + split; [ assumption | split; [ assumption | tauto ] ].
    + destruct (closing_keeps_invariant s c (seasons w)) as (H1 & H2 & H3).
      split; [ unfold unique_slugs; rewrite H1; assumption | ].
      split; [ unfold at_most_one_active in *; lia | assumption ].
Qed.

(** X16 (the lifecycle under every chain of writes).  On a table with
    unique slugs and at most one active season, after any chain of
    activations, patches and closings, whatever their arguments and whatever
    storage faults hit them, the slugs are still unique, at most one season
    is active, and every season that was closed is still closed. *)
Theorem lifecycle_invariants (os : list operation) (w : world) :
  unique_slugs (seasons w) ->
  at_most_one_active (seasons w) ->
  unique_slugs (seasons (run_operations os w))
  /\ at_most_one_active (seasons (run_operations os w))
  /\ (forall s, status_of s (seasons w) = Some closed ->
                status_of s (seasons (run_operations os w)) = Some closed).
Proof.
  unfold run_operations. revert w.
  induction os as [ | o os IH ]; intros w Hu Hone; simpl.
  - split; [ assumption | split; [ assumption | tauto ] ].
  - destruct (run_operation_keeps o w Hu Hone) as (Hu1 & Hone1 & Hc1).
    destruct (IH (run_operation o w) Hu1 Hone1) as (Hu2 & Hone2 & Hc2).
    split; [ assumption | split; [ assumption | ] ].
    intros s H. apply Hc2, Hc1, H.
Qed.

Lemma lifecycle_invariants_witness :
  at_most_one_active
    (seasons (run_operations
                [Activate "b"; Close "a"; Activate "a";
                 PatchSeason "c" (Patch.mk (JString "Gamma") JNull JUndefined
                                           JUndefined);
                 Activate "c"; Close "b"; Activate "b"]
                (quiet example_table))).
Proof.
  destruct (lifecycle_invariants
              [Activate "b"; Close "a"; Activate "a";
               PatchSeason "c" (Patch.mk (JString "Gamma") JNull JUndefined
                                         JUndefined);
               Activate "c"; Close "b"; Activate "b"]
              (quiet example_table)
              example_table_unique example_table_one_active) as (_ & H & _).
  exact H.
Defined.

Lemma closed_rows_selected (s : string) (c : Z) (t : table) (r : season) :
  unique_slugs t -> In r t ->
  exists r', filter (slug_is (slug r))
                    (update_where (slug_is (slug r)) (set_status closed) c t)
             = [r']
             /\ status r' = closed.
Proof.
  intros Hu Hin.
  destruct (closing_map (slug r) c t) as (g & -> & Hslug & Hstatus & _).
  rewrite (filter_map_rows (slug_is (slug r)) (slug_is (slug r)) g).
  2:{ intros x. unfold slug_is. rewrite Hslug. reflexivity. }
  rewrite (filter_slug_unique t r Hu Hin). exists (g r).
  split; [ reflexivity | ]. rewrite Hstatus. unfold slug_is.
  rewrite String.eqb_refl. reflexivity.
Qed.

(** X17 (closed means closed).  When [setSeasonClosed] of a season went
    through (it reports one affected row, whatever the status was), an
    [activateSeasonTx] of that season resolves to
    [{ok: false, error: "season_closed"}] and changes nothing. *)
Theorem closed_season_cannot_be_activated (w : world) (r : season) :
  calm 6 (faults w) = true ->
  unique_slugs (seasons w) ->
  In r (seasons w) ->
  fst (setSeasonClosed (slug r) w) = Normal 1%nat
  /\ status_of (slug r) (seasons (snd (setSeasonClosed (slug r) w)))
     = Some closed
  /\ fst (activateSeasonTx (slug r) (snd (setSeasonClosed (slug r) w)))
     = Normal season_closed
  /\ seasons (snd (activateSeasonTx (slug r) (snd (setSeasonClosed (slug r) w))))
     = seasons (snd (setSeasonClosed (slug r) w)).
Proof.
  intros Hcalm Hu Hin.
  rewrite (setSeasonClosed_calm (slug r) w (calm_weaken 6 2 _ ltac:(lia) Hcalm)).
  cbn [fst snd].
  set (w1 := mkWorld _ _ _ _ _).
  destruct (closed_rows_selected (slug r) (now w + 2) (seasons w) r Hu Hin)
    as (r' & F & Hclosed).
  assert (Hcalm1 : calm 4 (faults w1) = true)
    by (apply (calm_skipn 2 4); exact Hcalm).
  assert (Hguard : activatable (slug r) (seasons w1) = false).
  { unfold activatable. subst w1. cbn [seasons]. rewrite F. simpl.
    rewrite Hclosed. reflexivity. }
  rewrite (activateSeasonTx_guarded (slug r) w1 Hcalm1 Hguard).
  subst w1. cbn [fst snd seasons]. rewrite F. cbn [hd_error].
  split; [ | split; [ | split; reflexivity ] ].
  - unfold count_where. rewrite (filter_slug_unique _ _ Hu Hin). reflexivity.
  - unfold status_of. rewrite find_slug_filter, F. simpl.
    rewrite Hclosed. reflexivity.
Qed.

Lemma closed_season_cannot_be_activated_witness :
  fst (activateSeasonTx "a" (snd (setSeasonClosed "a" (quiet example_table))))
  = Normal season_closed.
Proof.
  destruct (closed_season_cannot_be_activated
              (quiet example_table) (row 1 "a" 10 active))
    as (_ & _ & H & _).
  - reflexivity.
  - exact example_table_unique.
  - simpl; auto.
  - exact H.
Defined.

(** X18 (closing the active season).  [setSeasonClosed] does not look at
    the status: it closes the active season like any other.  It reports at
    least one affected row, the season is closed afterwards (every row of
    that slug is), the slugs of the table and the rows of the other seasons
    are as they were.  On a table that satisfies the single-active invariant
    no season is active afterwards, and [getActiveSeason] resolves to [null]
    until another season is activated. *)
Theorem closing_the_active_season (w : world) (r : season) :
  calm 4 (faults w) = true ->
  at_most_one_active (seasons w) ->
  In r (seasons w) ->
  status r = active ->
  (exists n, fst (setSeasonClosed (slug r) w) = Normal (S n))
  /\ status_of (slug r) (seasons (snd (setSeasonClosed (slug r) w)))
     = Some closed
  /\ (forall x, In x (seasons (snd (setSeasonClosed (slug r) w))) ->
                slug x = slug r -> status x = closed)
  /\ map slug (seasons (snd (setSeasonClosed (slug r) w)))
     = map slug (seasons w)
  /\ (forall x, In x (seasons w) -> slug x <> slug r ->
                In x (seasons (snd (setSeasonClosed (slug r) w))))
  /\ filter is_active (seasons (snd (setSeasonClosed (slug r) w))) = []
  /\ fst (getActiveSeason (snd (setSeasonClosed (slug r) w))) = Normal None.
Proof.
  intros Hcalm Hone Hin Hact.
  rewrite (setSeasonClosed_calm (slug r) w (calm_weaken 4 2 _ ltac:(lia) Hcalm)).
  cbn [fst snd]. set (w1 := mkWorld _ _ _ _ _).
  assert (Hcalm1 : calm 2 (faults w1) = true)
    by (apply (calm_skipn 2 2); exact Hcalm).
  destruct (closing_map (slug r) (now w + 2) (seasons w))
    as (g & E & Hslug & Hstatus & Hfix).
  assert (Hself : slug_is (slug r) r = true)
    by (apply slug_is_true; reflexivity).
  assert (Hnone : filter is_active (seasons w1) = []).
  { subst w1. cbn [seasons]. apply no_active_rows. intros x Hx Hax.
    rewrite E in Hx. apply in_map_iff in Hx. destruct Hx as (y & <- & Hy).
    rewrite Hstatus in Hax. destruct (slug_is (slug r) y) eqn:Ey;
      [ discriminate | ].
    assert (y = r) by (apply (active_rows_equal (seasons w)); assumption).
    subst y. congruence. }
  split; [ | split; [ | split; [ | split; [ | split; [ | split ] ] ] ] ].
  - unfold count_where.
    destruct (filter (slug_is (slug r)) (seasons w)) as [ | y l ] eqn:F.
    + exfalso.
      assert (Hr : In r (filter (slug_is (slug r)) (seasons w)))
        by (apply filter_In; split; assumption).
      rewrite F in Hr. exact Hr.
    + exists (List.length l). reflexivity.
  - subst w1. cbn [seasons]. unfold status_of.
    rewrite E, (find_slug_map _ g _ Hslug).
    destruct (find (slug_is (slug r)) (seasons w)) as [ y | ] eqn:F.
    + apply find_some in F. destruct F as [_ Fy]. cbn [option_map].
      rewrite Hstatus, Fy. reflexivity.
    + pose proof (find_none _ _ F r Hin) as Hr. congruence.
  - subst w1. cbn [seasons]. intros x Hx Hsx.
    rewrite E in Hx. apply in_map_iff in Hx. destruct Hx as (y & <- & Hy).
    rewrite Hslug in Hsx. apply slug_is_true in Hsx.
    rewrite Hstatus, Hsx. reflexivity.
  - subst w1. cbn [seasons]. rewrite E, map_map.
    apply map_ext. exact Hslug.
  - subst w1. cbn [seasons]. intros x Hx Hsx. rewrite E.
    apply in_map_iff. exists x. split; [ | exact Hx ].
    apply Hfix. destruct (slug_is (slug r) x) eqn:Ex; [ | reflexivity ].
    apply slug_is_true in Ex. congruence.
  - exact Hnone.
  - destruct (getActiveSeason_calm w1 Hcalm1) as [-> _].
    rewrite Hnone. reflexivity.
Qed.

Lemma closing_the_active_season_witness :
  status_of "a" (seasons (snd (setSeasonClosed "a" (quiet example_table))))
  = Some closed
  /\ fst (getActiveSeason (snd (setSeasonClosed "a" (quiet example_table))))
     = Normal None.
Proof.
  destruct (closing_the_active_season
              (quiet example_table) (row 1 "a" 10 active))
    as (_ & Hc & _ & _ & _ & _ & H).
  - reflexivity.
  - exact example_table_one_active.
  - simpl; auto.
  - reflexivity.
  - split; [ exact Hc | exact H ].
Defined.

(* ================================================================== *)
(** * The session cookie and the logout route *)
(* ================================================================== *)

Section CookieFacts.

Import Slug Auth Sessions Cookies.

Lemma jsstring_eqb_same (a : jsstring) : jsstring_eqb a a = true.
Proof. apply jsstring_eqb_eq. reflexivity. Qed.

(** X19 (the session cookie).  With nothing configured the cookie is named
    [hsc_sid], is [SameSite=lax] and is [Secure].  It stays [Secure] unless
    [COOKIE_SECURE] is set to a non-empty string that does not spell [true]
    (in ASCII, in any mix of capitals and small letters).  The cookie that
    [clearSessionCookie] writes has the name, path, [Secure], [SameSite] and
    [HttpOnly] of the cookie that [setSessionCookie] writes, an empty value
    and a max age of 0; and [readSessionId] finds a session id under that
    same name. *)
Theorem session_cookie_settings
    (unicode_lower : jsstring -> N -> jsstring -> jsstring)
    (ttlMinutes : Z) (env : environment) :
  (truthy (COOKIE_NAME env) = false ->
   name (getCookieConfig unicode_lower ttlMinutes env) = of_string "hsc_sid")
  /\ (truthy (COOKIE_SAMESITE env) = false ->
      sameSite (getCookieConfig unicode_lower ttlMinutes env) = of_string "lax")
  /\ (truthy (COOKIE_SECURE env) = false ->
      secure (getCookieConfig unicode_lower ttlMinutes env) = true)
  /\ (forall s, COOKIE_SECURE env = Some s -> s <> [] ->
        Forall (fun c => (c < 128)%N) s ->
        (secure (getCookieConfig unicode_lower ttlMinutes env) = true
         <-> map ascii_lower s = of_string "true"))
  /\ (forall res sid,
        setSessionCookie unicode_lower ttlMinutes env res sid
        = (res ++ [Cookie (name (getCookieConfig unicode_lower ttlMinutes env))
                          sid
                          (mkCookieOptions true
                             (secure (getCookieConfig unicode_lower ttlMinutes env))
                             (sameSite (getCookieConfig unicode_lower ttlMinutes env))
                             (of_string "/") (ttlMinutes * 60 * 1000))])%list
        /\ clearSessionCookie unicode_lower ttlMinutes env res
           = (res ++ [Cookie (name (getCookieConfig unicode_lower ttlMinutes env))
                             []
                             (mkCookieOptions true
                                (secure (getCookieConfig unicode_lower ttlMinutes env))
                                (sameSite (getCookieConfig unicode_lower ttlMinutes env))
                                (of_string "/") 0)])%list)
  /\ (forall sid rest, sid <> [] ->
        readSessionId unicode_lower ttlMinutes env
          (Some ((name (getCookieConfig unicode_lower ttlMinutes env), sid)
                 :: rest))
        = Str sid).
Proof.
  split; [ | split; [ | split; [ | split; [ | split ] ] ] ].
  - destruct env as [ [ [ | c s ] | ] ss sc ]; simpl; try discriminate;
      reflexivity.
  - destruct env as [ sn [ [ | c s ] | ] sc ]; simpl; try discriminate;
      reflexivity.
  - destruct env as [ sn ss [ [ | c s ] | ] ]; simpl; try discriminate;
      reflexivity.
  - intros s Hs Hne Hascii. unfold getCookieConfig. cbn [secure]. rewrite Hs.
    destruct s as [ | c s ]; [ congruence | ]. cbn [env_or].
    unfold toLowerCase. rewrite (lower_from_ascii _ _ _ Hascii).
    apply jsstring_eqb_eq.
  - intros res sid. split; reflexivity.
  - intros sid rest Hne. unfold readSessionId. cbn [own_property].
    rewrite jsstring_eqb_same. destruct sid; [ congruence | reflexivity ].
Qed.

Lemma session_cookie_settings_witness :
  secure (getCookieConfig sample_lower 60
            (mkEnvironment None None (Some (of_string "True"))))
  = true.
Proof.
  destruct (session_cookie_settings sample_lower 60
              (mkEnvironment None None (Some (of_string "True"))))
    as (_ & _ & _ & H & _).
  destruct (H (of_string "True")) as [_ H2].
  - reflexivity.
  - discriminate.
  - repeat constructor.
  - apply H2. reflexivity.
Defined.

(** X20 (logout).  [POST /auth/logout] always clears the session cookie
    and then answers [{ok: true}], whatever the storage does.  It asks the
    storage only when the database is ready and the request carries a
    session id; a rejection is swallowed, and then the table is as it was.
    When the storage answers, the session is revoked: a later [getSession]
    of that id resolves to [null]. *)
Theorem logout_always_clears
    (unicode_lower : jsstring -> N -> jsstring -> jsstring)
    (ttlMinutes : Z) (key : bool) (dt : Z -> Z)
    (env : environment) (dbReady : bool) (cookies : cookie_jar)
    (res : list res_call) (w : process) :
  fst (logout unicode_lower ttlMinutes key dt env dbReady cookies res w)
  = (res
     ++ [Cookie (name (getCookieConfig unicode_lower ttlMinutes env)) []
                (mkCookieOptions true
                   (secure (getCookieConfig unicode_lower ttlMinutes env))
                   (sameSite (getCookieConfig unicode_lower ttlMinutes env))
                   (of_string "/") 0);
         JsonOk])%list
  /\ (dbReady = false \/ readSessionId unicode_lower ttlMinutes env cookies = Null ->
      snd (logout unicode_lower ttlMinutes key dt env dbReady cookies res w) = w)
  /\ (forall e rest,
        failures w = Some e :: rest \/ failures w = None :: Some e :: rest ->
        sessions (snd (logout unicode_lower ttlMinutes key dt env dbReady
                         cookies res w))
        = sessions w)
  /\ (forall id w2,
        dbReady = true ->
        readSessionId unicode_lower ttlMinutes env cookies = Str id ->
        quiet_for 2 (failures w) = true ->
        sessions w2
        = sessions (snd (logout unicode_lower ttlMinutes key dt env dbReady
                           cookies res w)) ->
        quiet_for 2 (failures w2) = true ->
        fst (getSession key dt (Str id) w2) = Normal None).
Proof.
  split; [ | split; [ | split ] ].
  - unfold logout, clearSessionCookie. cbn [fst].
    rewrite <- app_assoc. reflexivity.
  - unfold logout. cbn [snd]. intros [ -> | -> ]; [ | reflexivity ].
    destruct (readSessionId _ _ _ _) as [ | | [ | c s ] ]; reflexivity.
  - intros e rest Hf. unfold logout. cbn [snd].
    destruct (readSessionId _ _ _ _) as [ | | [ | c s ] ]; try reflexivity.
    destruct dbReady; [ | reflexivity ].
    destruct w as [t dn sn en dr fs cs]. cbn [failures] in Hf.
    destruct Hf as [ -> | -> ]; reflexivity.
  - intros id w2 -> Hsid Hq Hw2 Hq2.
    assert (Hid : id <> []).
    { intros ->. unfold readSessionId in Hsid.
      destruct cookies as [ o | ]; [ | discriminate ].
      destruct (own_property _ o) as [ [ | c s ] | ]; discriminate. }
    unfold logout in Hw2. cbn [snd] in Hw2. rewrite Hsid in Hw2.
    destruct id as [ | c s ]; [ congruence | ].
    destruct (revokeSession_quiet key dt (c :: s) w Hid Hq) as [_ Ht].
    destruct (getSession_quiet 0 key dt (c :: s) w2 Hid Hq2) as [-> _].
    rewrite Hw2, Ht, revoked_not_live. reflexivity.
Qed.

Lemma logout_always_clears_witness :
  snd (logout sample_lower 60 true (fun z => z)
         (mkEnvironment None None None) false
         (Some [(of_string "hsc_sid", of_string "ab")]) [] sample_process)
  = sample_process.
Proof.
  destruct (logout_always_clears sample_lower 60 true (fun z => z)
              (mkEnvironment None None None) false
              (Some [(of_string "hsc_sid", of_string "ab")]) []
              sample_process) as (_ & H & _).
  apply H. left. reflexivity.
Defined.

End CookieFacts.

(* ================================================================== *)
(** * Creating a news item *)
(* ================================================================== *)

Section NewsFacts.

Import Slug Auth News.

Lemma requireMinRole_editor
    (unicode_lower : jsstring -> N -> jsstring -> jsstring)
    (key : maybe_string) (req : request) (res : exchange) :
  requireMinRole unicode_lower key req res (Str (of_string "editor"))
  = (isAdminKey key req,
     if isAdminKey key req then res else send 403 "Forbidden" res).
Proof.
  unfold requireMinRole. rewrite roleRank_effective.
  destruct (isAdminKey key req); reflexivity.
Qed.

Lemma slug_is_its_lookup_key
    (unicode_lower : jsstring -> N -> jsstring -> jsstring) (s : jsstring) :
  is_slug s = true -> lookup_key unicode_lower (Str s) = s.
Proof.
  unfold is_slug. rewrite !andb_true_iff. intros [ [ [Hu _] _ ] _ ].
  assert (HU : Forall (fun c => is_slug_unit c = true) s)
    by (apply Forall_forall; apply forallb_forall; assumption).
  assert (HW : Forall (fun c => is_whitespace c = false) s)
    by (eapply Forall_impl; [ | exact HU ]; apply slug_unit_not_whitespace).
  unfold lookup_key, toLowerCase. cbn [to_string].
  rewrite (trim_fixed s HW). apply lower_from_fixed. assumption.
Qed.

(** X21 (what a news creation sends to the storage).  [POST /admin/news]
    sends at most one INSERT, and only for a request that carries the admin
    key, with the database ready, with a slug, a title and a content that
    are not empty, and after the connection was made.  The slug it binds is
    [normalizeSlug] of the slug of the body; it is not empty, has the shape
    of a slug, is left unchanged by a second [normalizeSlug] and is the very
    key [GET /content/news/:slug] computes from it.  A 201 reply carries that
    slug and the [insertId] of the storage.  Without the admin key the reply
    is the 403 of [requireMinRole], whatever the body and the database. *)
Theorem news_creation_gate
    (unicode_lower : jsstring -> N -> jsstring -> jsstring)
    (key : maybe_string) (dbReady : bool) (req : request)
    (body : option news_body)
    (connecting : completion unit) (inserting : completion Z) :
  (List.length (snd (createNews unicode_lower key dbReady req body
                       connecting inserting)) <= 1)%nat
  /\ (forall p,
        In p (snd (createNews unicode_lower key dbReady req body
                     connecting inserting)) ->
        isAdminKey key req = true
        /\ dbReady = true
        /\ falsy (body_slug (body_or_empty body)) = false
        /\ falsy (body_title (body_or_empty body)) = false
        /\ falsy (body_content (body_or_empty body)) = false
        /\ connecting = Normal tt
        /\ param_slug p
           = normalizeSlug unicode_lower (body_slug (body_or_empty body))
        /\ param_slug p <> []
        /\ is_slug (param_slug p) = true
        /\ normalizeSlug unicode_lower (Str (param_slug p)) = param_slug p
        /\ lookup_key unicode_lower (Str (param_slug p)) = param_slug p
        /\ param_title p = trim (to_string (body_title (body_or_empty body))))
  /\ (forall id slug,
        fst (createNews unicode_lower key dbReady req body connecting inserting)
        = Created id slug ->
        inserting = Normal id
        /\ exists p,
             snd (createNews unicode_lower key dbReady req body
                    connecting inserting) = [p]
             /\ param_slug p = slug)
  /\ (isAdminKey key req = false ->
      createNews unicode_lower key dbReady req body connecting inserting
      = (Refused (mkResponse 403 false "Forbidden"), [])).
Proof.
  unfold createNews. rewrite requireMinRole_editor.
  pose proof (normalizeSlug_is_slug unicode_lower
                (body_slug (body_or_empty body))) as Hshape.
  destruct (isAdminKey key req);
    [ | cbn [negb fst snd sent send app];
        repeat split; try (simpl; lia); try contradiction;
        intros; discriminate ].
  cbn [negb]. destruct dbReady; cbn [negb];
    [ | repeat split; try (simpl; lia); try contradiction;
        intros; discriminate ].
  destruct (falsy (body_slug (body_or_empty body))) eqn:Fs;
    [ cbn [orb]; repeat split; try (simpl; lia); try contradiction;
      intros; discriminate | ].
  destruct (falsy (body_title (body_or_empty body))) eqn:Ft;
    [ cbn [orb]; repeat split; try (simpl; lia); try contradiction;
      intros; discriminate | ].
  destruct (falsy (body_content (body_or_empty body))) eqn:Fc;
    [ cbn [orb]; repeat split; try (simpl; lia); try contradiction;
      intros; discriminate | ].
  cbn [orb].
  destruct (normalizeSlug unicode_lower (body_slug (body_or_empty body)))
    as [ | c s ] eqn:En;
    [ repeat split; try (simpl; lia); try contradiction;
      intros; discriminate | ].
  assert (Hfacts :
    c :: s <> []
    /\ is_slug (c :: s) = true
    /\ normalizeSlug unicode_lower (Str (c :: s)) = c :: s
    /\ lookup_key unicode_lower (Str (c :: s)) = c :: s).
  { split; [ discriminate | split; [ exact Hshape | split ] ].
    - apply is_slug_fixed. exact Hshape.
    - apply slug_is_its_lookup_key. exact Hshape. }
  destruct connecting as [ [] | e ];
    [ | unfold reply_to_error;
        destruct (includes _ _);
        repeat split; try (simpl; lia); try contradiction;
        intros; discriminate ].
  destruct inserting as [ id | e ]; cbn [fst snd].
  - split; [ simpl; lia | split; [ | split; [ | intros; discriminate ] ] ].
    + intros p [ <- | [] ]. cbn [param_slug param_title].
      repeat split; try reflexivity; apply Hfacts.
    + intros id' slug' H. injection H as -> ->.
      split; [ reflexivity | ]. eexists. split; reflexivity.
  - split; [ simpl; lia | split; [ | split; [ | intros; discriminate ] ] ].
    + intros p [ <- | [] ]. cbn [param_slug param_title].
      repeat split; try reflexivity; apply Hfacts.
    + unfold reply_to_error. destruct (includes _ _); intros; discriminate.
Qed.

Lemma news_creation_gate_witness :
  createNews sample_lower (Some (of_string "k")) true (mkRequest None)
    (Some (mkNewsBody (Str (of_string "Hello World"))
                      (Str (of_string " Hi ")) Undefined
                      (Str (of_string "text")) Undefined))
    (Normal tt) (Normal 7%Z)
  = (Refused (mkResponse 403 false "Forbidden"), []).
Proof.
  destruct (news_creation_gate sample_lower (Some (of_string "k")) true
              (mkRequest None)
              (Some (mkNewsBody (Str (of_string "Hello World"))
                                (Str (of_string " Hi ")) Undefined
                                (Str (of_string "text")) Undefined))
              (Normal tt) (Normal 7%Z)) as (_ & _ & _ & H).
  apply H. reflexivity.
Defined.

End NewsFacts.
